(** * Inline dice rolling (cogs5e/dice.py): a shallow embedding

    The Python module is embedded function by function.  A Python [str] is
    the list of its code points; indices are naturals ([str.find]'s [-1] is
    [None]); the in-place updates of the index list are list inserts; the
    [d20] roll engine, which is not part of the repository, is a parameter
    of the sections that call it. *)

From Stdlib Require Import NArith ZArith Lia String Ascii DecimalString.
From stdpp Require Import base tactics option list gmap.

Local Open Scope nat_scope.

(** ** Python strings *)

Abbreviation char := N (only parsing).
Abbreviation str := (list N) (only parsing).

(** A string literal of the source, as code points. *)
Definition py (s : string) : str := map N_of_ascii (list_ascii_of_string s).

Definition NL : char := 10%N.

(** [Py_UNICODE_ISSPACE]: the test behind [str.split()], [str.strip()] and
    the [\s] class of [re] on [str] patterns. *)
Definition isspace (c : char) : bool :=
  ((9 <=? c) && (c <=? 13) || (28 <=? c) && (c <=? 32)
   || (c =? 133) || (c =? 160) || (c =? 5760)
   || (8192 <=? c) && (c <=? 8202)
   || (c =? 8232) || (c =? 8233) || (c =? 8239) || (c =? 8287)
   || (c =? 12288))%N.

(** [s.startswith(p)] *)
Fixpoint prefixb (p s : str) : bool :=
  match p, s with
  | [], _ => true
  | _ :: _, [] => false
  | a :: p', b :: s' => (a =? b)%N && prefixb p' s'
  end.

(** [content[a:b]] for non-negative indices. *)
Definition slice (content : str) (a b : nat) : str :=
  take (b - a) (drop a content).

(** First occurrence of [sub] in [s], reported with offset [i]. *)
Fixpoint find_from (sub s : str) (i : nat) : option nat :=
  if prefixb sub s then Some i
  else match s with
       | [] => None
       | _ :: s' => find_from sub s' (S i)
       end.

(** [content.find(sub, start)]; [None] stands for [-1]. *)
Definition find (sub content : str) (start : nat) : option nat :=
  if start <=? length content then find_from sub (drop start content) start
  else None.

Definition OPEN : str := py "[[".
Definition CLOSE : str := py "]]".

(** ** The locator: [_find_roll_expr_indices] *)

(** [(start, expr_start, expr_end, end)] *)
Definition range := (nat * nat * nat * nat)%type.

(** The [while] loop, [e] being the loop variable [end].  [None] is
    returned only when the fuel runs out. *)
Fixpoint find_roll_loop (fuel : nat) (content : str) (e : nat)
  : option (list range) :=
  match fuel with
  | 0 => None
  | S fuel' =>
      match find OPEN content e with
      | None => Some []
      | Some start =>
          match find CLOSE content start with
          | None => Some []
          | Some e' =>
              cons (start, start + 2, e', e' + 2)
                <$> find_roll_loop fuel' content e'
          end
      end
  end.

Definition _find_roll_expr_indices (content : str) : list range :=
  default [] (find_roll_loop (S (length content)) content 0).

(** ** Whitespace splitting and stripping *)

(** [s.lstrip()] *)
Fixpoint lstrip (s : str) : str :=
  match s with
  | c :: s' => if isspace c then lstrip s' else s
  | [] => []
  end.

(** [s.rstrip()] *)
Definition rstrip (s : str) : str := reverse (lstrip (reverse s)).

(** [s.strip()] *)
Definition strip (s : str) : str := rstrip (lstrip s).

(** The maximal run of non-whitespace characters at the front of [s]. *)
Fixpoint word_of (s : str) : str :=
  match s with
  | c :: s' => if isspace c then [] else c :: word_of s'
  | [] => []
  end.

(** What is left of [s] after that run. *)
Fixpoint after_word (s : str) : str :=
  match s with
  | c :: s' => if isspace c then s else after_word s'
  | [] => []
  end.

(** [s.split(maxsplit=n)] (no separator): CPython's whitespace split.  At
    most [n] words are cut off from the left; what remains then, leading
    whitespace skipped, is the last item when it is not empty. *)
Fixpoint split (n : nat) (s : str) : list str :=
  match n with
  | 0 => match lstrip s with [] => [] | r => [r] end
  | S n' =>
      match lstrip s with
      | [] => []
      | s1 => word_of s1 :: split n' (after_word s1)
      end
  end.

(** [s.rsplit(maxsplit=n)]: CPython's right split is the mirror image of
    the left one. *)
Definition rsplit (n : nat) (s : str) : list str :=
  reverse (reverse <$> split n (reverse s)).

(** [s.split()]: no word limit.  A string has at most [length s] words,
    so this limit is never reached. *)
Definition split_all (s : str) : list str := split (length s) s.

(** ** The context-window resolver: [_find_inline_exprs] *)

(** One entry of [idxs]:
    [((before_idx, start), (expr_start, expr_end), (end, after_idx))]. *)
Record window := Window {
  before_idx : nat;
  w_start : nat;
  expr_start : nat;
  expr_end : nat;
  w_end : nat;
  after_idx : nat
}.

Definition set_before_idx (b : nat) (w : window) : window :=
  Window b (w_start w) (expr_start w) (expr_end w) (w_end w) (after_idx w).

Definition set_after_idx (a : nat) (w : window) : window :=
  Window (before_idx w) (w_start w) (expr_start w) (expr_end w) (w_end w) a.

(** The body of the first loop: the window of one located expression,
    before any clamping. *)
Definition raw_window (content : str) (context_before context_after
                       max_context_len : nat) (r : range) : window :=
  let '(start, e_start, e_end, end_) := r in
  let content_len := length content in
  let before_idx := max 0 (start - max_context_len) in
  let before_fragment := slice content before_idx start in
  let before_bits := rsplit context_before before_fragment in
  let before_idx :=
    if context_before <? length before_bits
    then before_idx + length (default [] (head before_bits))
    else before_idx in
  let after_idx := min content_len (end_ + max_context_len) in
  let after_fragment := slice content end_ after_idx in
  let after_bits := split context_after after_fragment in
  let after_idx :=
    if context_after <? length after_bits
    then after_idx - length (default [] (last after_bits))
    else after_idx in
  Window before_idx start e_start e_end end_ after_idx.

Definition raw_windows (content : str) (context_before context_after
                        max_context_len : nat) : list window :=
  raw_window content context_before context_after max_context_len
    <$> _find_roll_expr_indices content.

(** "start boundaries": the loop over [enumerate(idxs[1:], start=1)].
    [snapshot] is what is left of the copy [idxs[1:]], [idxs] the list
    being updated; [idxs[i - 1][2][0]] is the field [w_end].  The index
    [i - 1] is always in range (Python would raise [IndexError]). *)
Fixpoint start_boundaries (i : nat) (snapshot idxs : list window)
  : list window :=
  match snapshot with
  | [] => idxs
  | w :: rest =>
      match idxs !! (i - 1) with
      | Some prev =>
          let clamped_before_idx := max (before_idx w) (w_end prev) in
          start_boundaries (S i) rest
            (<[i := set_before_idx clamped_before_idx w]> idxs)
      | None => idxs
      end
  end.

(** "end boundaries": the loop over [enumerate(idxs[:-1])];
    [idxs[i + 1][0][0]] is the field [before_idx], and [i + 1] is always
    in range. *)
Fixpoint end_boundaries (i : nat) (snapshot idxs : list window)
  : list window :=
  match snapshot with
  | [] => idxs
  | w :: rest =>
      match idxs !! (i + 1) with
      | Some next =>
          let clamped_after_idx := min (after_idx w) (before_idx next) in
          end_boundaries (S i) rest
            (<[i := set_after_idx clamped_after_idx w]> idxs)
      | None => idxs
      end
  end.

Definition forward_pass (idxs : list window) : list window :=
  start_boundaries 1 (drop 1 idxs) idxs.

Definition backward_pass (idxs : list window) : list window :=
  end_boundaries 0 (take (length idxs - 1) idxs) idxs.

(** The two passes, in the order of the source. *)
Definition clamp (idxs : list window) : list window :=
  backward_pass (forward_pass idxs).

Definition ELLIPSIS : str := py "...".

(** The texts of one window before the ellipsis handling. *)
Definition before_text (content : str) (w : window) : str :=
  lstrip (slice content (before_idx w) (w_start w)).

Definition after_text (content : str) (w : window) : str :=
  rstrip (slice content (w_end w) (after_idx w)).

(** The body of the last loop: [(expr, context_before, context_after)]. *)
Definition materialize (content : str) (w : window) : str * str * str :=
  let context_before := before_text content w in
  let expr := strip (slice content (expr_start w) (expr_end w)) in
  let context_after := after_text content w in
  let context_before :=
    if 0 <? before_idx w then ELLIPSIS ++ context_before
    else context_before in
  let context_after :=
    if after_idx w <? length content then context_after ++ ELLIPSIS
    else context_after in
  (expr, context_before, context_after).

(** The index list once both clamping passes have run. *)
Definition windows (content : str) (context_before context_after
                    max_context_len : nat) : list window :=
  clamp (raw_windows content context_before context_after max_context_len).

Definition _find_inline_exprs (content : str) (context_before context_after
                               max_context_len : nat)
  : list (str * str * str) :=
  materialize content
    <$> windows content context_before context_after max_context_len.

(** The defaults of the signature. *)
Definition CONTEXT_BEFORE := 5.
Definition CONTEXT_AFTER := 2.
Definition MAX_CONTEXT_LEN := 128.

Definition find_inline_exprs_default (content : str) :=
  _find_inline_exprs content CONTEXT_BEFORE CONTEXT_AFTER MAX_CONTEXT_LEN.

(** ** A backtracking matcher for the patterns of [_string_search_adv] *)

Inductive AdvType := ADV | DIS | NONE.

(** The constructs the three patterns use.  Groups only group. *)
Inductive regex :=
| Bol                      (* ^ *)
| Eol                      (* $ *)
| Lit (c : char)           (* a literal character *)
| Spaces                   (* \s+ *)
| Cat (r1 r2 : regex)
| Alt (r1 r2 : regex).     (* r1|r2 *)

(** [\s+], greedy: the longest run is tried first, then shorter ones. *)
Fixpoint spaces_plus (i : nat) (s : str) (k : nat -> str -> option nat)
  : option nat :=
  match s with
  | c :: s' =>
      if isspace c then
        match spaces_plus (S i) s' k with
        | Some e => Some e
        | None => k (S i) s'
        end
      else None
  | [] => None
  end.

(** [rmatch r i s k]: match [r] at index [i], [s] being the text from [i]
    on, then continue with [k]; alternatives are tried left to right.
    Without [re.MULTILINE], [^] matches at index 0 only and [$] at the end
    of the text or just before a newline that ends it. *)
Fixpoint rmatch (r : regex) (i : nat) (s : str)
                (k : nat -> str -> option nat) : option nat :=
  match r with
  | Bol => if i =? 0 then k i s else None
  | Eol =>
      match s with
      | [] => k i s
      | [c] => if (c =? NL)%N then k i s else None
      | _ => None
      end
  | Lit c =>
      match s with
      | d :: s' => if (d =? c)%N then k (S i) s' else None
      | [] => None
      end
  | Spaces => spaces_plus i s k
  | Cat r1 r2 => rmatch r1 i s (fun j t => rmatch r2 j t k)
  | Alt r1 r2 =>
      match rmatch r1 i s k with
      | Some e => Some e
      | None => rmatch r2 i s k
      end
  end.

(** The end index of the match of [r] that starts at index [i]. *)
Definition match_at (r : regex) (i : nat) (s : str) : option nat :=
  rmatch r i s (fun j _ => Some j).

Fixpoint search_from (r : regex) (i : nat) (s : str) : option (nat * nat) :=
  match match_at r i s with
  | Some e => Some (i, e)
  | None =>
      match s with
      | [] => None
      | _ :: s' => search_from r (S i) s'
      end
  end.

(** [re.search(r, s)]: the span of the leftmost match. *)
Definition re_search (r : regex) (s : str) : option (nat * nat) :=
  search_from r 0 s.

(** [re.sub(r, '', s)] from index [i] on, [skip] characters of a match
    still to be deleted.  Matches are taken left to right and do not
    overlap; an empty match deletes nothing. *)
Fixpoint sub_from (r : regex) (i skip : nat) (s : str) : str :=
  match s with
  | [] => []
  | c :: s' =>
      match skip with
      | S skip' => sub_from r (S i) skip' s'
      | 0 =>
          match match_at r i s with
          | Some e =>
              match e - i with
              | S n => sub_from r (S i) n s'
              | 0 => c :: sub_from r (S i) 0 s'
              end
          | None => c :: sub_from r (S i) 0 s'
          end
      end
  end.

Definition re_sub_empty (r : regex) (s : str) : str := sub_from r 0 0 s.

(** A character of a pattern, and a three-letter literal. *)
Definition ch (a : ascii) : char := N_of_ascii a.

Definition lit3 (a b c : ascii) : regex :=
  Cat (Lit (ch a)) (Cat (Lit (ch b)) (Lit (ch c))).

Definition LIT_ADV : regex := lit3 "a" "d" "v".
Definition LIT_DIS : regex := lit3 "d" "i" "s".

(** [(^|\s+)] and [(\s+|$)] *)
Definition word_start : regex := Alt Bol Spaces.
Definition word_stop : regex := Alt Spaces Eol.

(** [(^|\s+)(adv|dis)(\s+|$)] *)
Definition RE_ADV_OR_DIS : regex :=
  Cat word_start (Cat (Alt LIT_ADV LIT_DIS) word_stop).

(** [(^|\s+)adv(\s+|$)] *)
Definition RE_ADV : regex :=
  Cat word_start (Cat LIT_ADV word_stop).

(** [(adv|dis)(\s+|$)] *)
Definition RE_STRIP : regex :=
  Cat (Alt LIT_ADV LIT_DIS) word_stop.

(** ** The advantage stripper: [_string_search_adv] *)

(** [m is not None] *)
Definition is_not_None {A} (m : option A) : bool :=
  match m with Some _ => true | None => false end.

Definition _string_search_adv (rollstr : str) : str * AdvType :=
  let adv := NONE in
  if is_not_None (re_search RE_ADV_OR_DIS rollstr) then
    let adv := if is_not_None (re_search RE_ADV rollstr) then ADV else DIS in
    let rollstr := re_sub_empty RE_STRIP rollstr in
    (rollstr, adv)
  else (rollstr, adv).

(** ** The roll engine

    [d20] is an external library.  Its parser, its rollers and what a roll
    result offers are the fields of a class; a roller's context and its
    source of randomness are one state that every roll takes and returns.
    A roll result is evaluated when it is read: [res.total], [res.result]
    and [str(res)] are properties that compute, and raise, on access. *)

(** The exceptions the commands can meet: the two of [d20] that they tell
    apart ([RollSyntaxError] is a subclass of [RollError] and is caught
    first; [RollError] here is any other roll error), with their [str()],
    and any other Python exception, with its name. *)
Inductive exn :=
| RollSyntaxError (msg : str)
| RollError (msg : str)
| OtherError (name : str).

(** What a call of a roller comes to: a result, or an exception. *)
Inductive outcome (R : Type) :=
| Rolled (res : R)
| RaisedRollSyntaxError (msg : str)
| RaisedRollError (msg : str)
| RaisedOther (name : str).
Arguments Rolled {R} res.
Arguments RaisedRollSyntaxError {R} msg.
Arguments RaisedRollError {R} msg.
Arguments RaisedOther {R} name.

Class RollEngine := {
  ast : Type;
  roll_result : Type;
  roll_context : Type;
  (** a total is an [int] or a [float] *)
  num : Type;
  num_of_Z : Z -> num;
  num_add : num -> num -> num;
  (** [total >= dc] *)
  num_geb : num -> Z -> bool;
  (** [str(total)] *)
  num_str : num -> str;
  (** [PersistentRollContext()] *)
  new_context : roll_context;
  (** [d20.parse(s, allow_comments=True)] *)
  parse : str -> str + ast;
  (** [ast.comment] *)
  ast_comment : ast -> option str;
  (** [roller.roll(ast, advantage=adv)] *)
  roll_ast : roll_context -> ast -> AdvType
             -> outcome roll_result * roll_context;
  (** [roller.roll(expr, allow_comments=True)] on a string *)
  roll_expr : roll_context -> str -> outcome roll_result * roll_context;
  (** [d20.roll(s, advantage=adv, allow_comments=True,
      stringifier=VerboseMDStringifier())] *)
  d20_roll : roll_context -> str -> AdvType
             -> outcome roll_result * roll_context;
  (** [res.total], [res.result] and [str(res)]: the value, or the
      exception raised on access *)
  total : roll_result -> exn + num;
  result : roll_result -> exn + str;
  result_str : roll_result -> exn + str
}.

(** [str(z)] of an [int] *)
Definition str_of_Z (z : Z) : str := py (NilZero.string_of_int (Z.to_int z)).

(** [sep.join(items)] *)
Fixpoint join (sep : str) (items : list str) : str :=
  match items with
  | [] => []
  | [x] => x
  | x :: rest => x ++ sep ++ join sep rest
  end.

(** [s.replace('\n', ' ')] *)
Definition replace_newlines (s : str) : str :=
  (fun c => if (c =? NL)%N then ch " " else c) <$> s.

(** [[f(x) for x in items]], up to the first [f(x)] that raises. *)
Fixpoint collect {A B : Type} (f : A → exn + B) (items : list A)
  : exn + list B :=
  match items with
  | [] => inr []
  | x :: rest =>
      match f x with
      | inl e => inl e
      | inr y =>
          match collect f rest with
          | inl e => inl e
          | inr ys => inr (y :: ys)
          end
      end
  end.

Section Commands.
Context `{RollEngine}.

(** What a command does to the outside, in order. *)
Inductive event :=
| Send (content : str) (mention_author : bool)   (* ctx.send *)
| Reply (content : str)                          (* message.reply *)
| TryDelete                                      (* try_delete(ctx.message) *)
| IncreaseStat (stat : str)                      (* Stats.increase_stat *)
| GameLogSendRoll (res : roll_result)            (* gamelog.send_roll *)
| Parse (s : str)                                (* a call of the parser *)
| Roll.                                          (* a call of a roller *)

(** The journal of events and the state of the module-level roller behind
    [d20.roll]. *)
Record world := World { journal : list event; d20_state : roll_context }.

(** A command: it changes the world and returns or raises. *)
Definition cmd (A : Type) : Type := world -> world * (exn + A).

#[export] Instance cmd_ret : MRet cmd := fun A a w => (w, inr a).

#[export] Instance cmd_bind : MBind cmd := fun A B k c w =>
  match c w with
  | (w', inr a) => k a w'
  | (w', inl e) => (w', inl e)
  end.

Definition raise {A} (e : exn) : cmd A := fun w => (w, inl e).

Definition emit (e : event) : cmd unit :=
  fun w => (World (journal w ++ [e]) (d20_state w), inr tt).

(** Reading a property of a result: its value, or the exception raised. *)
Definition read {A} (r : exn + A) : cmd A := fun w => (w, r).

(** An outcome of the engine, as a value or as the exception raised. *)
Definition lift_outcome (o : outcome roll_result) : cmd roll_result :=
  match o with
  | Rolled res => mret res
  | RaisedRollSyntaxError msg => raise (RollSyntaxError msg)
  | RaisedRollError msg => raise (RollError msg)
  | RaisedOther name => raise (OtherError name)
  end.

Definition call_parse (s : str) : cmd ast :=
  emit (Parse s);;
  match parse s with
  | inr a => mret a
  | inl msg => raise (RollSyntaxError msg)
  end.

(** The module-level roller behind [d20.roll] takes a step. *)
Definition d20_step (s : str) (adv : AdvType) : cmd roll_result :=
  fun w =>
    let '(o, st) := d20_roll (d20_state w) s adv in
    lift_outcome o (World (journal w) st).

(** [d20.roll(...)] *)
Definition call_d20_roll (s : str) (adv : AdvType) : cmd roll_result :=
  emit Roll;;
  d20_step s adv.

(** What a command is invoked with: the author's mention and whether the
    [GameLog] cog is loaded. *)
Record context := MkContext { mention : str; gamelog : bool }.

Definition EASTER_EGG : str :=
  py "What do you expect me to do, destroy the universe?".

Definition GAME_DIE : str := py "  :game_die:".

(** The text [out] of [rollCmd]: [str(res)] is read for the first
    f-string, and again, before [res.total], for the one that replaces it
    when it is too long. *)
Definition roll_reply (ctx : context) (res : roll_result) : cmd str :=
  s ← read (result_str res);
  let out := mention ctx ++ GAME_DIE ++ [NL] ++ s in
  if 1999 <? length out then
    s ← read (result_str res);
    t ← read (total res);
    mret (mention ctx ++ GAME_DIE ++ [NL] ++ take 100 s
            ++ py "..." ++ [NL] ++ py "**Total**: " ++ num_str t)
  else mret out.

(** [Dice.rollCmd] *)
Definition rollCmd (ctx : context) (rollStr : str) : cmd unit :=
  if bool_decide (rollStr = py "0/0") then
    emit (Send EASTER_EGG false)
  else
    let '(rollStr, adv) := _string_search_adv rollStr in
    res ← call_d20_roll rollStr adv;
    out ← roll_reply ctx res;
    emit TryDelete;;
    emit (Send out true);;
    emit (IncreaseStat (py "dice_rolled_life"));;
    if gamelog ctx then emit (GameLogSendRoll res) else mret tt.

(** [Dice.quick_roll] *)
Definition quick_roll (ctx : context) (mod_ : str) : cmd unit :=
  let rollStr := py "1d20+" ++ mod_ in
  rollCmd ctx rollStr.

(** [dc is not None and res.total >= dc]: the total is read only when a
    DC is given. *)
Definition meets_dc (dc : option Z) (res : roll_result) : exn + bool :=
  match dc with
  | Some d =>
      match total res with
      | inl e => inl e
      | inr t => inr (num_geb t d)
      end
  | None => inr false
  end.

(** The loop [for _ in range(iterations)] of [_roll_many]: the roller's
    state, the successes and the results so far are carried along. *)
Fixpoint roll_iterations (n : nat) (a : ast) (adv : AdvType) (dc : option Z)
    (st : roll_context) (successes : nat) (results : list roll_result)
  : cmd (nat * list roll_result) :=
  match n with
  | 0 => mret (successes, results)
  | S n' =>
      emit Roll;;
      let '(o, st') := roll_ast st a adv in
      res ← lift_outcome o;
      success ← read (meets_dc dc res);
      let successes := if success : bool then S successes else successes in
      roll_iterations n' a adv dc st' successes (results ++ [res])
  end.

(** [sum(o.total for o in results)], from the accumulator [acc] on: the
    totals are read one after the other. *)
Fixpoint sum_totals (acc : num) (results : list roll_result) : exn + num :=
  match results with
  | [] => inr acc
  | res :: rest =>
      match total res with
      | inl e => inl e
      | inr t => sum_totals (num_add acc t) rest
      end
  end.

Definition roll_many_header (a : ast) (iterations : Z) (dc : option Z) : str :=
  let header :=
    match dc with
    | None => py "Rolling " ++ str_of_Z iterations ++ py " iterations..."
    | Some d =>
        py "Rolling " ++ str_of_Z iterations ++ py " iterations, DC "
          ++ str_of_Z d ++ py "..."
    end in
  match ast_comment a with
  | Some (c :: comment) => (c :: comment) ++ py ": " ++ header
  | _ => header
  end.

(** The footer, the sum of the totals being [sum]. *)
Definition roll_many_footer (successes : nat) (sum : num) (dc : option Z)
  : str :=
  match dc with
  | None => num_str sum ++ py " total."
  | Some _ =>
      str_of_Z (Z.of_nat successes) ++ py " successes, "
        ++ num_str sum ++ py " total."
  end.

(** The text of the reply, from [result_strs] on: every [str(o)] is read
    for the full text, and [str(results[0])] again for the short one. *)
Definition roll_many_out (header footer : str) (results : list roll_result)
  : cmd str :=
  strs ← read (collect result_str results);
  let result_strs := join [NL] strs in
  let out := header ++ [NL] ++ result_strs ++ [NL] ++ footer in
  if 1500 <? length out then
    one_result ←
      match results with
      | res :: _ => read (result_str res)
      | [] => raise (OtherError (py "IndexError"))
      end;
    mret (header ++ [NL] ++ one_result ++ [NL] ++ py "["
            ++ str_of_Z (Z.of_nat (length results) - 1)
            ++ py " results omitted for output size.]" ++ [NL] ++ footer)
  else mret out.

(** [Dice._roll_many] *)
Definition _roll_many (ctx : context) (iterations : Z) (roll_str : str)
    (dc : option Z) (adv : option AdvType) : cmd unit :=
  if ((iterations <? 1) || (100 <? iterations))%Z then
    emit (Send (py "Too many or too few iterations.") false)
  else
    let adv := default NONE adv in
    a ← call_parse roll_str;
    '(successes, results) ←
      roll_iterations (Z.to_nat iterations) a adv dc new_context 0 [];
    sum ← read (sum_totals (num_of_Z 0) results);
    let header := roll_many_header a iterations dc in
    let footer := roll_many_footer successes sum dc in
    out ← roll_many_out header footer results;
    emit TryDelete;;
    emit (Send (mention ctx ++ [NL] ++ out) true);;
    emit (IncreaseStat (py "dice_rolled_life")).

(** [Dice.rr] *)
Definition rr (ctx : context) (iterations : Z) (rollStr : str) : cmd unit :=
  let '(rollStr, adv) := _string_search_adv rollStr in
  _roll_many ctx iterations rollStr None (Some adv).

(** [Dice.rrr] *)
Definition rrr (ctx : context) (iterations : Z) (rollStr : str)
    (dc : option Z) (args : str) : cmd unit :=
  let '(_, adv) := _string_search_adv args in
  _roll_many ctx iterations rollStr dc (Some adv).

(** The loop of [do_inline_rolls]: [st] is the state of the local roller,
    [out] the lines so far.  The two handlers catch what [roller.roll]
    raises; [result.result] is read in the [else:] clause, outside them,
    so that what it raises leaves the loop, as does any exception of
    [roller.roll] that is not a [RollError]. *)
Fixpoint inline_lines (st : roll_context) (roll_exprs : list (str * str * str))
    (out : list str) : exn + list str :=
  match roll_exprs with
  | [] => inr out
  | (expr, context_before, context_after) :: rest =>
      let context_before := replace_newlines context_before in
      let context_after := replace_newlines context_after in
      match roll_expr st expr with
      | (RaisedRollSyntaxError _, st') => inline_lines st' rest out
      | (RaisedRollError e, st') =>
          inline_lines st' rest
            (out ++ [context_before ++ py "(" ++ e ++ py ")" ++ context_after])
      | (RaisedOther name, st') => inl (OtherError name)
      | (Rolled res, st') =>
          match result res with
          | inl e => inl e
          | inr s =>
              inline_lines st' rest
                (out ++ [context_before ++ py "(" ++ s ++ py ")"
                           ++ context_after])
          end
      end
  end.

(** [Dice.do_inline_rolls] *)
Definition do_inline_rolls (roll_exprs : list (str * str * str)) : cmd unit :=
  out ← read (inline_lines new_context roll_exprs []);
  match out with
  | [] => mret tt
  | _ => emit (Reply (join [NL] out))
  end.

End Commands.

(** ** A small engine for running the commands

    A roll result is the expression and its rendering; its total is the
    length of the expression.  As with [d20], an expression that starts
    with [(] does not parse, one that starts with [1001d] raises a roll
    error when it is rolled, and one that starts with [1/0] rolls to a
    result that raises the roll error when it is read.  The state counts
    the rolls. *)

Definition toy_render (s : str) : str :=
  s ++ py " = some dice, rendered at length".

Definition toy_roll (st : nat) (s : str) : outcome (Z * str) * nat :=
  if prefixb (py "(") s then (RaisedRollSyntaxError (py "Unexpected input"), st)
  else if prefixb (py "1001d") s
       then (RaisedRollError (py "Too many dice rolled."), S st)
       else (Rolled (Z.of_nat (length s), toy_render s), S st).

(** Reading a property [x] of a toy result. *)
Definition toy_read {A} (x : A) (res : Z * str) : exn + A :=
  if prefixb (py "1/0") res.2 then inl (RollError (py "Cannot divide by zero."))
  else inr x.

#[export] Instance toy_engine : RollEngine := {|
  ast := str;
  roll_result := Z * str;
  roll_context := nat;
  num := Z;
  num_of_Z := id;
  num_add := Z.add;
  num_geb := Z.geb;
  num_str := str_of_Z;
  new_context := 0;
  parse := fun s =>
    if prefixb (py "(") s then inl (py "Unexpected input") else inr s;
  ast_comment := fun _ => None;
  roll_ast := fun st a _ => toy_roll st a;
  roll_expr := toy_roll;
  d20_roll := fun st s _ => toy_roll st s;
  total := fun res => toy_read res.1 res;
  result := fun res => toy_read res.2 res;
  result_str := fun res => toy_read res.2 res
|}.

(** The world a command starts in. *)
Definition toy_world : world := World [] 0.
Definition toy_ctx : context := MkContext (py "<@42>") false.

(** ** Notions the statements use *)

Definition range_start (r : range) : nat := r.1.1.1.
Definition range_stop (r : range) : nat := r.2.

(** A text made of bracketed expressions: each [(gap, expr)] stands for
    [gap ++ "[[" ++ expr ++ "]]"], and [rest] follows the last pair. *)
Fixpoint build (segs : list (str * str)) (rest : str) : str :=
  match segs with
  | [] => rest
  | (gap, expr) :: segs' => gap ++ OPEN ++ expr ++ CLOSE ++ build segs' rest
  end.

(** The index ranges of those pairs, the text starting at offset [off]. *)
Fixpoint ranges_of (off : nat) (segs : list (str * str)) : list range :=
  match segs with
  | [] => []
  | (gap, expr) :: segs' =>
      let start := off + length gap in
      let stop := start + 2 + length expr in
      (start, start + 2, stop, stop + 2) :: ranges_of (stop + 2) segs'
  end.

(** A gap opens nothing: no [[[] in it, nor one completed by the opening
    delimiter that follows it. *)
Definition no_opener (gap : str) : Prop :=
  find OPEN (gap ++ py "[") 0 = None.

(** An expression closes nothing: no []]] in it, nor one completed by the
    closing delimiter that follows it. *)
Definition no_closer (expr : str) : Prop :=
  find CLOSE (expr ++ py "]") 0 = None.

Definition well_formed_pair (seg : str * str) : Prop :=
  no_opener seg.1 ∧ no_closer seg.2.


(** The number of whitespace-separated tokens of a text: [len(s.split())]. *)
Definition tokens (s : str) : nat := length (split_all s).

(** The same number, counted in one pass: a word starts at every
    non-whitespace character that does not continue a word. *)
Fixpoint count_words (in_word : bool) (s : str) : nat :=
  match s with
  | [] => 0
  | c :: s' =>
      if isspace c then count_words false s'
      else (if in_word then 0 else 1) + count_words true s'
  end.

Definition starts_word (s : str) : bool :=
  match s with
  | c :: _ => negb (isspace c)
  | [] => false
  end.

Definition ends_word (in_word : bool) (s : str) : bool :=
  match last s with
  | Some c => negb (isspace c)
  | None => in_word
  end.

(** The two passes in closed form.  Forward: every window but the first
    starts no earlier than where the previous window's expression ends. *)
Fixpoint clamp_starts (prev : option nat) (idxs : list window)
  : list window :=
  match idxs with
  | [] => []
  | w :: rest =>
      match prev with
      | Some e => set_before_idx (max (before_idx w) e) w
      | None => w
      end :: clamp_starts (Some (w_end w)) rest
  end.

(** Backward: every window but the last ends no later than where the
    next window starts. *)
Fixpoint clamp_ends (idxs : list window) : list window :=
  match idxs with
  | [] => []
  | w :: rest =>
      match rest with
      | next :: _ => set_after_idx (min (after_idx w) (before_idx next)) w
      | [] => w
      end :: clamp_ends rest
  end.

(** Windows in text order, as the first loop leaves them: each expression
    starts after the previous one has ended, and each window reaches back
    and forth from its expression. *)
Fixpoint raw_chain (lo : nat) (idxs : list window) : Prop :=
  match idxs with
  | [] => True
  | w :: rest =>
      lo ≤ w_start w ∧ before_idx w ≤ w_start w ∧ w_start w ≤ w_end w
      ∧ w_end w ≤ after_idx w ∧ raw_chain (w_end w) rest
  end.

(** Windows that follow one another without overlap. *)
Fixpoint chain (lo : nat) (idxs : list window) : Prop :=
  match idxs with
  | [] => True
  | w :: rest =>
      lo ≤ before_idx w ∧ before_idx w ≤ w_start w ∧ w_start w ≤ w_end w
      ∧ w_end w ≤ after_idx w ∧ chain (after_idx w) rest
  end.

(** Index [p] lies in the after-window, or in the before-window. *)
Definition in_after (w : window) (p : nat) : Prop :=
  w_end w ≤ p < after_idx w.

Definition in_before (w : window) (p : nat) : Prop :=
  before_idx w ≤ p < w_start w.


(** Ranges in text order inside a text of length [hi]: delimiters of two
    characters, and each range starting after the previous one has
    ended. *)
Fixpoint ranges_chain (lo hi : nat) (l : list range) : Prop :=
  match l with
  | [] => True
  | (start, e_start, e_end, stop) :: l' =>
      lo ≤ start ∧ e_start = start + 2 ∧ e_start ≤ e_end
      ∧ stop = e_end + 2 ∧ stop ≤ hi ∧ ranges_chain stop hi l'
  end.


(** A window keeps to the word limits. *)
Definition within_words (content : str) (context_before context_after : nat)
    (w : window) : Prop :=
  count_words false (slice content (before_idx w) (w_start w))
    ≤ context_before
  ∧ count_words false (slice content (w_end w) (after_idx w))
    ≤ context_after.

(** [w'] is [w] with a window that reaches no further on either side. *)
Definition shrinks (w w' : window) : Prop :=
  w_start w' = w_start w ∧ expr_start w' = expr_start w
  ∧ expr_end w' = expr_end w ∧ w_end w' = w_end w
  ∧ before_idx w ≤ before_idx w' ∧ after_idx w' ≤ after_idx w.


(** The length of the whitespace run at the front of [s]. *)
Fixpoint space_run (s : str) : nat :=
  match s with
  | c :: s' => if isspace c then S (space_run s') else 0
  | [] => 0
  end.

(** A token to strip starts here: [adv] or [dis], followed by whitespace
    or by the end of the text. *)
Definition token_here (s : str) : bool :=
  (prefixb (py "adv") s || prefixb (py "dis") s)
  && negb (starts_word (drop 3 s)).

(** [stripped s out]: scanning [s] from the left, every token met is
    deleted together with the whitespace run that follows it, and every
    other character is kept; [out] is what is left. *)
Inductive stripped : str → str → Prop :=
| stripped_nil : stripped [] []
| stripped_token (s out : str) :
    token_here s = true →
    stripped (drop (3 + space_run (drop 3 s)) s) out →
    stripped s out
| stripped_keep (c : char) (s out : str) :
    token_here (c :: s) = false →
    stripped s out →
    stripped (c :: s) (c :: out).


Section RollNotions.
Context `{RollEngine}.

(** The results of [n] rolls of [a] in a row, up to the first roll that
    raises. *)
Fixpoint rolls_of (n : nat) (a : ast) (adv : AdvType) (st : roll_context)
  : list roll_result :=
  match n with
  | 0 => []
  | S n' =>
      match roll_ast st a adv with
      | (Rolled res, st') => res :: rolls_of n' a adv st'
      | _ => []
      end
  end.

(** The iterations of a batch that run to their end, and the exception
    that stops the batch, if one does: the one the roll raises or, when a
    DC is given, the one the total of its result raises. *)
Fixpoint roll_run (n : nat) (a : ast) (adv : AdvType) (dc : option Z)
    (st : roll_context) : list roll_result * option exn :=
  match n with
  | 0 => ([], None)
  | S n' =>
      match roll_ast st a adv with
      | (Rolled res, st') =>
          match dc, total res with
          | Some _, inl e => ([], Some e)
          | _, _ =>
              let '(done, stop) := roll_run n' a adv dc st' in
              (res :: done, stop)
          end
      | (RaisedRollSyntaxError msg, _) => ([], Some (RollSyntaxError msg))
      | (RaisedRollError msg, _) => ([], Some (RollError msg))
      | (RaisedOther name, _) => ([], Some (OtherError name))
      end
  end.

(** How many of the totals meet the DC. *)
Fixpoint successes_of (dc : option Z) (totals : list num) : nat :=
  match totals with
  | [] => 0
  | t :: rest =>
      match dc with
      | Some d =>
          if num_geb t d then S (successes_of dc rest)
          else successes_of dc rest
      | None => 0
      end
  end.

(** The sum of the totals. *)
Definition sum_of (totals : list num) : num :=
  foldl num_add (num_of_Z 0) totals.

(** The reply with one line for every iteration. *)
Definition full_output (header footer : str) (lines : list str) : str :=
  header ++ [NL] ++ join [NL] lines ++ [NL] ++ footer.

(** The reply with the first line only, [iterations] being the number of
    iterations. *)
Definition short_output (header footer first : str) (iterations : Z) : str :=
  header ++ [NL] ++ first ++ [NL] ++ py "[" ++ str_of_Z (iterations - 1)
    ++ py " results omitted for output size.]" ++ [NL] ++ footer.

(** The text of the reply to a batch: with every line, or with the first
    one only when that is longer than 1500 characters. *)
Definition reply_text (header footer : str) (lines : list str)
    (iterations : Z) : str :=
  if 1500 <? length (full_output header footer lines)
  then short_output header footer (default [] (head lines)) iterations
  else full_output header footer lines.

(** The line of an inline roll: the text in brackets between its two
    contexts. *)
Definition inline_line (context_before text context_after : str) : str :=
  replace_newlines context_before ++ py "(" ++ text ++ py ")"
    ++ replace_newlines context_after.

(** The lines of a batch of inline rolls whose results all render, and
    the state the local roller ends in: none for an expression that does
    not parse, the message for one whose roll raises a roll error, the
    rendering for one that rolls. *)
Inductive renders : roll_context → list (str * str * str) → list str
                    → roll_context → Prop :=
| renders_nil st : renders st [] [] st
| renders_syntax st expr cb ca rest msg st' lines st'' :
    roll_expr st expr = (RaisedRollSyntaxError msg, st') →
    renders st' rest lines st'' →
    renders st ((expr, cb, ca) :: rest) lines st''
| renders_error st expr cb ca rest msg st' lines st'' :
    roll_expr st expr = (RaisedRollError msg, st') →
    renders st' rest lines st'' →
    renders st ((expr, cb, ca) :: rest) (inline_line cb msg ca :: lines) st''
| renders_rolled st expr cb ca rest res s st' lines st'' :
    roll_expr st expr = (Rolled res, st') →
    result res = inr s →
    renders st' rest lines st'' →
    renders st ((expr, cb, ca) :: rest) (inline_line cb s ca :: lines) st''.

(** The reply to a message with inline rolls: none without lines. *)
Definition reply_of (lines : list str) : list event :=
  match lines with
  | [] => []
  | _ => [Reply (join [NL] lines)]
  end.

End RollNotions.

Definition REJECTION : str := py "Too many or too few iterations.".
Definition DICE_ROLLED : str := py "dice_rolled_life".


(** A range whose delimiters are in the text: [[[] at its start, []]] at
    the end of its expression, and no []]] starting anywhere before. *)
Definition delimited (content : str) (r : range) : Prop :=
  prefixb OPEN (drop (range_start r) content) = true
  ∧ prefixb CLOSE (drop (r.1.2) content) = true
  ∧ ∀ k, range_start r ≤ k < r.1.2 →
         prefixb CLOSE (drop k content) = false.


(** [tok] starts the text [u] and is followed by whitespace or by the end
    of the text. *)
Definition token_at (tok u : str) : bool :=
  prefixb tok u && negb (starts_word (drop (length tok) u)).

(** [tok] occurs in [s] as a whole word: the start of the text or
    whitespace before it, whitespace or the end of the text after it. *)
Definition whole_word (tok s : str) : Prop :=
  ∃ pre post, s = pre ++ tok ++ post
              ∧ ends_word false pre = false ∧ starts_word post = false.


(** ** The listeners of inline rolling *)

Definition INLINE_ROLLING_EMOJI : str := [127922%N].

Record user := User { user_id : Z; user_bot : bool; user_mention : str }.

Record message := Message {
  msg_id : Z;
  msg_author : user;
  msg_content : str
}.

Record reaction := Reaction {
  reaction_emoji : str;
  reaction_message : message
}.

(** What the code puts into an embed; its colour, drawn at random, is
    left out. *)
Record embed := Embed {
  embed_title : str;
  embed_description : str;
  embed_fields : list (str * str);
  embed_footer : str
}.

(** Modelled from the spec: the key-value store [bot.rdb], whose code is
    not in the file.  [set(key, value)] sets a key for good, never
    expiring; [setWithExpiry(key, value, ttlSeconds)] sets it for
    [ttlSeconds] seconds from the time of the call; [get(key) -> bool]
    tells whether the key is set at the time of the call.  An entry is the
    value and the time from which it is gone, if there is one; times are
    in seconds, read off the store's clock. *)
Definition rdb_get (db : gmap (list N) (list N * option Z)) (key : str)
    (clock : Z) : bool :=
  match db !! key with
  | Some (_, None) => true
  | Some (_, Some expiry) => (clock <? expiry)%Z
  | None => false
  end.

Definition rdb_set (db : gmap (list N) (list N * option Z)) (key value : str)
  : gmap (list N) (list N * option Z) :=
  <[key := (value, None)]> db.

Definition rdb_setex (db : gmap (list N) (list N * option Z))
    (key value : str) (ttl : Z) (clock : Z)
  : gmap (list N) (list N * option Z) :=
  <[key := (value, Some (clock + ttl)%Z)]> db.

(** What a listener finds around it: [str(time.time())], the store's
    clock, and whether a direct message to a user goes through
    ([user.send] raises [discord.HTTPException] when it does not). *)
Record env := Env { now : str; clock : Z; dm_open : Z → bool }.

Definition ONBOARDING_GREETING (u : user) : str :=
  py "Hi " ++ user_mention u
    ++ py ", it looks like this is your first time using inline rolling with me!".

Definition ONBOARDING_FOOTER : str := py "You won't see this message again.".

Definition message_onboarding_embed (u : user) : embed :=
  Embed (py "Inline Rolling") (ONBOARDING_GREETING u)
    [(py "What is Inline Rolling?",
      py "Whenever you send a message with some dice in between double brackets (e.g. `[[1d20]]`), I'll reply to it with a roll for each one. You can send messages with multiple, too, like this: ```"
        ++ [NL]
        ++ py "I attack the goblin with my shortsword [[1d20 + 6]] for a total of [[1d6 + 3]] piercing damage."
        ++ [NL] ++ py "```")]
    ONBOARDING_FOOTER.

Definition reaction_onboarding_embed (u : user) : embed :=
  Embed (py "Inline Rolling - Reactions") (ONBOARDING_GREETING u)
    [(py "What is Inline Rolling?",
      py "Whenever you send a message with some dice in between double brackets (e.g. `[[1d20]]`), I'll react with the "
        ++ INLINE_ROLLING_EMOJI
        ++ py " emoji. You can click it to have me roll all of the dice in your message, and I'll reply with my own message!")]
    ONBOARDING_FOOTER.

Definition message_onboarded_key (u : user) : str :=
  py "cog.dice.inline_rolling.users." ++ str_of_Z (user_id u)
    ++ py ".onboarded.message".

Definition reaction_onboarded_key (u : user) : str :=
  py "cog.dice.inline_rolling.users." ++ str_of_Z (user_id u)
    ++ py ".onboarded.reaction".

Definition processed_key (m : message) : str :=
  py "cog.dice.inline_rolling.messages." ++ str_of_Z (msg_id m)
    ++ py ".processed".

Section Listeners.
Context `{RollEngine}.

(** The bot as the listeners see it: the world of the commands, the
    store, and the direct messages delivered so far. *)
Record bot := Bot {
  bot_world : world;
  bot_rdb : gmap (list N) (list N * option Z);
  bot_dms : list (Z * embed)
}.

(** [Dice.inline_rolling_message_onboarding] *)
Definition inline_rolling_message_onboarding (e : env) (u : user) (b : bot)
  : bot :=
  if rdb_get (bot_rdb b) (message_onboarded_key u) (clock e) then b
  else
    let embed := message_onboarding_embed u in
    if dm_open e (user_id u) then
      Bot (bot_world b)
        (rdb_set (bot_rdb b) (message_onboarded_key u) (now e))
        (bot_dms b ++ [(user_id u, embed)])
    else b.

(** [Dice.inline_rolling_reaction_onboarding] *)
Definition inline_rolling_reaction_onboarding (e : env) (u : user) (b : bot)
  : bot :=
  if rdb_get (bot_rdb b) (reaction_onboarded_key u) (clock e) then b
  else
    let embed := reaction_onboarding_embed u in
    if dm_open e (user_id u) then
      Bot (bot_world b)
        (rdb_set (bot_rdb b) (reaction_onboarded_key u) (now e))
        (bot_dms b ++ [(user_id u, embed)])
    else b.

(** [do_inline_rolls], run by a listener. *)
Definition run_inline_rolls (roll_exprs : list (str * str * str)) (b : bot)
  : bot * (exn + unit) :=
  let '(w, r) := do_inline_rolls roll_exprs (bot_world b) in
  (Bot w (bot_rdb b) (bot_dms b), r).

(** [Dice.handle_message_inline_rolls]; the branch under [if False] is
    never taken. *)
Definition handle_message_inline_rolls (e : env) (m : message) (b : bot)
  : bot * (exn + unit) :=
  let roll_exprs := find_inline_exprs_default (msg_content m) in
  match roll_exprs with
  | [] => (b, inr tt)
  | _ =>
      let b := inline_rolling_message_onboarding e (msg_author m) b in
      run_inline_rolls roll_exprs b
  end.

(** [Dice.handle_reaction_inline_rolls] *)
Definition handle_reaction_inline_rolls (e : env) (r : reaction) (u : user)
    (b : bot) : bot * (exn + unit) :=
  if negb (user_id u =? user_id (msg_author (reaction_message r)))%Z
  then (b, inr tt)
  else if negb (bool_decide (reaction_emoji r = INLINE_ROLLING_EMOJI))
  then (b, inr tt)
  else
    let m := reaction_message r in
    let roll_exprs := find_inline_exprs_default (msg_content m) in
    match roll_exprs with
    | [] => (b, inr tt)
    | _ =>
        if rdb_get (bot_rdb b) (processed_key m) (clock e) then (b, inr tt)
        else
          let b :=
            Bot (bot_world b)
              (rdb_setex (bot_rdb b) (processed_key m) (now e)
                 (60 * 60 * 24) (clock e))
              (bot_dms b) in
          run_inline_rolls roll_exprs b
    end.

(** [Dice.on_message] *)
Definition on_message (e : env) (m : message) (b : bot)
  : bot * (exn + unit) :=
  if user_bot (msg_author m) then (b, inr tt)
  else handle_message_inline_rolls e m b.

(** [Dice.on_reaction_add] *)
Definition on_reaction_add (e : env) (r : reaction) (u : user) (b : bot)
  : bot * (exn + unit) :=
  if user_bot u then (b, inr tt)
  else handle_reaction_inline_rolls e r u b.

End Listeners.


(** A user, an environment in which direct messages go through, and an
    empty bot, to run the listeners on. *)
Definition alice : user := User 7 false (py "<@7>").
Definition toy_env : env := Env (py "1700000000.0") 1700000000 (λ _, true).
(** The same a minute later, and two days later. *)
Definition minute_env : env := Env (py "1700000060.0") 1700000060 (λ _, true).
Definition later_env : env := Env (py "1700172800.0") 1700172800 (λ _, true).
Definition toy_bot : bot (H := toy_engine) := Bot toy_world ∅ [].

(** * Properties *)

(** ** The definitions on small inputs *)

Example find_example :
  find OPEN (py "a [[1]] b [[2") 4 = Some 10
  ∧ find CLOSE (py "a [[1]] b [[2") 10 = None.
Proof. by vm_compute. Qed.

Example split_example :
  split 1 (py " a b c ") = [py "a"; py "b c "]
  ∧ split 2 (py " a b ") = [py "a"; py "b"]
  ∧ split 0 (py "  ") = [].
Proof. by vm_compute. Qed.

Example rsplit_example :
  rsplit 1 (py "  a b c") = [py "  a b"; py "c"]
  ∧ rsplit 5 (py "[[1]] a b c ") = [py "[[1]]"; py "a"; py "b"; py "c"].
Proof. by vm_compute. Qed.

Example locator_example :
  _find_roll_expr_indices (py "I hit [[1d20+5]] for [[1d6]] damage [[oops")
  = [(6, 8, 14, 16); (21, 23, 26, 28)].
Proof. by vm_compute. Qed.

(** The sentence of the onboarding message. *)
Example find_inline_exprs_example :
  find_inline_exprs_default
    (py "I attack the goblin with my shortsword [[1d20 + 6]] for a total of [[1d6 + 3]] piercing damage.")
  = [(py "1d20 + 6", py "...the goblin with my shortsword ", py "...");
     (py "1d6 + 3", py "...for a total of ", py " piercing damage.")].
Proof. by vm_compute. Qed.

Example string_search_adv_example :
  _string_search_adv (py "1d20+1 adv") = (py "1d20+1 ", ADV)
  ∧ _string_search_adv (py "1d20+3") = (py "1d20+3", NONE)
  ∧ _string_search_adv (py "1d20-3 dis") = (py "1d20-3 ", DIS).
Proof. by vm_compute. Qed.

(** ** Searching *)

Lemma prefixb_app (p s : str) : prefixb p (p ++ s) = true.
Proof.
  induction p as [|a p IH]; simpl; [done|].
  by rewrite N.eqb_refl.
Qed.

Lemma prefixb_length (p s : str) :
  prefixb p s = true → length p ≤ length s.
Proof.
  revert s; induction p as [|a p IH]; intros [|b s]; simpl; try done; try lia.
  intros [_ Hp]%andb_prop. apply IH in Hp. lia.
Qed.

Lemma find_from_shift (sub s : str) (i : nat) :
  find_from sub s i = (λ j, i + j) <$> find_from sub s 0.
Proof.
  revert i; induction s as [|c s IH]; intros i; simpl.
  - destruct (prefixb sub []); simpl; f_equal; lia.
  - destruct (prefixb sub (c :: s)); simpl; [f_equal; lia|].
    rewrite (IH (S i)), (IH 1).
    destruct (find_from sub s 0); simpl; f_equal; lia.
Qed.

Lemma find_from_Some (sub s : str) (i j : nat) :
  find_from sub s i = Some j →
  i ≤ j ∧ j - i ≤ length s ∧ prefixb sub (drop (j - i) s) = true.
Proof.
  revert i; induction s as [|c s IH]; intros i; simpl.
  - destruct (prefixb sub []) eqn:E; [|done].
    intros [= <-]. rewrite Nat.sub_diag. split_and!; [lia|lia|done].
  - destruct (prefixb sub (c :: s)) eqn:E.
    + intros [= <-]. rewrite Nat.sub_diag. split_and!; [lia|lia|done].
    + intros (Hle & Hlen & Hp)%IH. split_and!; [lia|lia|].
      by replace (j - i) with (S (j - S i)) by lia.
Qed.

Lemma find_Some (sub content : str) (start j : nat) :
  find sub content start = Some j →
  start ≤ j ∧ j + length sub ≤ length content
  ∧ prefixb sub (drop j content) = true.
Proof.
  unfold find. destruct (start <=? length content) eqn:E; [|done].
  apply Nat.leb_le in E.
  intros (Hle & Hlen & Hp)%find_from_Some.
  rewrite length_drop in Hlen.
  rewrite drop_drop in Hp.
  replace (start + (j - start)) with j in Hp by lia.
  split_and!; [done| |done].
  apply prefixb_length in Hp. rewrite length_drop in Hp. lia.
Qed.

Lemma find_app_length (sub p s : str) :
  find sub (p ++ s) (length p) = find_from sub s (length p).
Proof.
  unfold find. rewrite length_app, drop_app_length.
  by destruct (Nat.leb_spec (length p) (length p + length s)); [|lia].
Qed.

Lemma find_from_None_shift (sub s : str) (i j : nat) :
  find_from sub s i = None → find_from sub s j = None.
Proof.
  rewrite (find_from_shift _ _ i), (find_from_shift _ _ j).
  by destruct (find_from sub s 0).
Qed.

(** Where a doubled character [c c] is first found when the text before
    it neither holds one nor ends in [c]. *)
Lemma find_from_pair (c : char) (a r : str) (i : nat) :
  find_from [c; c] (a ++ [c]) 0 = None →
  find_from [c; c] (a ++ [c; c] ++ r) i = Some (i + length a).
Proof.
  simpl app.
  revert i; induction a as [|d a IH]; intros i Hno.
  - simpl. rewrite !N.eqb_refl. simpl. f_equal; lia.
  - simpl in Hno. simpl.
    assert (Hsame : (match a ++ [c] with [] => false
                     | b :: _ => (c =? b)%N && true end)
                  = (match a ++ c :: c :: r with [] => false
                     | b :: _ => (c =? b)%N && true end))
      by (destruct a; done).
    rewrite <- Hsame.
    destruct ((c =? d)%N && _); [done|].
    apply (find_from_None_shift _ _ _ 0) in Hno.
    rewrite (IH (S i) Hno). f_equal; lia.
Qed.

Lemma find_from_pair_skip (c d : char) (a : str) (i : nat) :
  c ≠ d →
  find_from [c; c] ([d; d] ++ a) i = find_from [c; c] a (S (S i)).
Proof.
  intros Hne%N.eqb_neq. simpl. rewrite Hne. simpl.
  destruct a as [|b a]; simpl; rewrite ?Hne; simpl; done.
Qed.

(** ** The locator *)

Lemma OPEN_eq : OPEN = [91; 91]%N.
Proof. reflexivity. Qed.

Lemma CLOSE_eq : CLOSE = [93; 93]%N.
Proof. reflexivity. Qed.

Lemma find_0 (sub s : str) : find sub s 0 = find_from sub s 0.
Proof. apply (find_app_length sub [] s). Qed.

Lemma no_opener_after_close (gap : str) :
  no_opener gap → no_opener (CLOSE ++ gap).
Proof.
  unfold no_opener. rewrite !find_0, OPEN_eq, CLOSE_eq.
  intros Hno. rewrite <- (assoc_L (++)), find_from_pair_skip by done.
  by apply (find_from_None_shift _ _ 0).
Qed.

Lemma build_cons (gap expr : str) (segs : list (str * str)) (rest : str) :
  build ((gap, expr) :: segs) rest
  = gap ++ [91; 91]%N ++ expr ++ [93; 93]%N ++ build segs rest.
Proof. reflexivity. Qed.

Lemma find_roll_loop_S (fuel : nat) (content : str) (e : nat) :
  find_roll_loop (S fuel) content e
  = match find [91; 91]%N content e with
    | None => Some []
    | Some start =>
        match find [93; 93]%N content start with
        | None => Some []
        | Some e' =>
            cons (start, start + 2, e', e' + 2)
              <$> find_roll_loop fuel content e'
        end
    end.
Proof. reflexivity. Qed.

(** The loop on a text of well-formed pairs, entered at the end of a
    prefix [p]; [x] is empty on entry and the closing delimiter of the
    previous pair afterwards. *)
Lemma find_roll_loop_build (segs : list (str * str)) :
  ∀ (x p rest : str) (fuel : nat),
    Forall well_formed_pair segs →
    x = [] ∨ x = [93; 93]%N →
    length (x ++ build segs rest) < fuel →
    (find_from [91; 91]%N rest 0 = None
     ∨ ∃ g u, rest = g ++ [91; 91]%N ++ u ∧ no_opener g
              ∧ find_from [93; 93]%N u 0 = None) →
    find_roll_loop fuel (p ++ x ++ build segs rest) (length p)
    = Some (ranges_of (length p + length x) segs).
Proof.
  assert (Hopen : ∀ x g, x = [] ∨ x = [93; 93]%N → no_opener g →
            find_from [91; 91]%N ((x ++ g) ++ [91]%N) 0 = None).
  { intros x g [->| ->] Hg.
    - by rewrite <- find_0.
    - apply no_opener_after_close in Hg. by rewrite <- find_0. }
  induction segs as [|[gap expr] segs IH];
    intros x p rest fuel Hwf Hx Hfuel Hrest;
    (destruct fuel as [|fuel]; [simpl in Hfuel; lia|]);
    rewrite find_roll_loop_S.
  - simpl build. rewrite find_app_length.
    destruct Hrest as [Hnone|(g & u & -> & Hg & Hu)].
    + assert (find_from [91; 91]%N (x ++ rest) 0 = None) as Hn.
      { destruct Hx as [->| ->]; [done|].
        rewrite find_from_pair_skip by done.
        by apply (find_from_None_shift _ _ 0). }
      by rewrite (find_from_None_shift _ _ _ _ Hn).
    + rewrite (assoc_L (++) x g).
      rewrite (find_from_pair _ _ _ _ (Hopen x g Hx Hg)).
      replace (p ++ (x ++ g) ++ [91; 91]%N ++ u)
        with ((p ++ x ++ g) ++ [91; 91]%N ++ u)
        by (by rewrite <- !(assoc_L (++))).
      replace (length p + length (x ++ g)) with (length (p ++ x ++ g))
        by (rewrite !length_app; lia).
      rewrite find_app_length.
      rewrite find_from_pair_skip by done.
      by rewrite (find_from_None_shift _ _ _ _ Hu).
  - apply Forall_cons in Hwf as [[Hgap Hexpr] Hwf]. simpl in Hgap, Hexpr.
    rewrite build_cons in *.
    rewrite find_app_length, (assoc_L (++) x gap).
    rewrite (find_from_pair _ _ _ _ (Hopen x gap Hx Hgap)).
    set (rest' := build segs rest) in *.
    replace (p ++ (x ++ gap) ++ [91; 91]%N ++ expr ++ [93; 93]%N ++ rest')
      with ((p ++ x ++ gap) ++ [91; 91]%N ++ expr ++ [93; 93]%N ++ rest')
      by (by rewrite <- !(assoc_L (++))).
    replace (length p + length (x ++ gap)) with (length (p ++ x ++ gap))
      by (rewrite !length_app; lia).
    rewrite find_app_length.
    rewrite find_from_pair_skip by done.
    unfold no_closer in Hexpr. rewrite find_0 in Hexpr.
    rewrite (find_from_pair 93%N expr rest' _ Hexpr).
    replace ((p ++ x ++ gap) ++ [91; 91]%N ++ expr ++ [93; 93]%N ++ rest')
      with ((p ++ x ++ gap ++ [91; 91]%N ++ expr) ++ [93; 93]%N ++ rest')
      by (by rewrite <- !(assoc_L (++))).
    replace (S (S (length (p ++ x ++ gap))) + length expr)
      with (length (p ++ x ++ gap ++ [91; 91]%N ++ expr))
      by (rewrite !length_app; simpl; lia).
    subst rest'.
    rewrite (IH [93; 93]%N (p ++ x ++ gap ++ [91; 91]%N ++ expr) rest fuel);
      [|done|by right| |done].
    + simpl. rewrite !length_app. simpl.
      replace (length p + (length x + length gap))
        with (length p + length x + length gap) by lia.
      by replace (length p + (length x + (length gap + S (S (length expr)))))
        with (length p + length x + length gap + 2 + length expr) by lia.
    + rewrite !length_app in *. simpl in *. lia.
Qed.

Lemma ranges_of_length (off : nat) (segs : list (str * str)) :
  length (ranges_of off segs) = length segs.
Proof.
  revert off; induction segs as [|[gap expr] segs IH]; intros off; simpl;
    [done|by rewrite IH].
Qed.

Lemma ranges_of_bounds (segs : list (str * str)) :
  ∀ (off i : nat) (r : range),
    ranges_of off segs !! i = Some r →
    off ≤ range_start r ∧ range_start r + 4 ≤ range_stop r.
Proof.
  induction segs as [|[gap expr] segs IH]; intros off i r; [done|].
  destruct i as [|i]; simpl.
  - intros [= <-]. unfold range_start, range_stop; simpl. lia.
  - intros [Hlo Hhi]%IH. lia.
Qed.

Lemma ranges_of_ordered (segs : list (str * str)) :
  ∀ (off i j : nat) (ri rj : range),
    ranges_of off segs !! i = Some ri →
    ranges_of off segs !! j = Some rj →
    i < j →
    range_start ri < range_start rj ∧ range_stop ri ≤ range_start rj.
Proof.
  induction segs as [|[gap expr] segs IH]; intros off i j ri rj; [done|].
  destruct i as [|i], j as [|j]; simpl; try lia.
  - intros [= <-] [Hlo Hhi]%ranges_of_bounds _.
    unfold range_start, range_stop in *; simpl in *. lia.
  - intros Hi Hj Hlt. eapply IH; [exact Hi|exact Hj|lia].
Qed.

(** C3: a text made of [k] well-formed [[[...]]] pairs (gaps that open
    nothing, expressions that close nothing, a rest without opening
    delimiter) yields exactly the [k] index ranges of its pairs, each
    starting after the previous one has ended; and a rest that ends in an
    opening delimiter never closed yields no further range. *)
Theorem locator_yields_one_range_per_pair
    (segs : list (str * str)) (rest gap dangling : str) :
  Forall well_formed_pair segs →
  find OPEN rest 0 = None →
  no_opener gap →
  find CLOSE dangling 0 = None →
  let found := _find_roll_expr_indices (build segs rest) in
  found = ranges_of 0 segs
  ∧ length found = length segs
  ∧ (∀ (i j : nat) (ri rj : range),
       found !! i = Some ri → found !! j = Some rj → i < j →
       range_start ri < range_start rj ∧ range_stop ri ≤ range_start rj)
  ∧ _find_roll_expr_indices (build segs (gap ++ OPEN ++ dangling)) = found.
Proof.
  intros Hwf Hrest Hgap Hdangling.
  rewrite find_0 in Hrest, Hdangling.
  assert (Hfound : _find_roll_expr_indices (build segs rest)
                   = ranges_of 0 segs).
  { unfold _find_roll_expr_indices.
    by rewrite (find_roll_loop_build segs [] [] rest); [|done|left|simpl; lia|left]. }
  simpl. rewrite Hfound. split_and!.
  - done.
  - apply ranges_of_length.
  - apply ranges_of_ordered.
  - unfold _find_roll_expr_indices.
    rewrite (find_roll_loop_build segs [] [] (gap ++ OPEN ++ dangling));
      [done|done|by left|simpl; lia|].
    right. by exists gap, dangling.
Qed.

(** Two pairs, a stray closing delimiter after them, and the same text
    with an opening delimiter left dangling. *)
Lemma locator_yields_one_range_per_pair_witness :
  let segs := [(py "I hit ", py "1d20+5"); (py " for ", py "1d6")] in
  let found := _find_roll_expr_indices (build segs (py " damage ]] done")) in
  found = ranges_of 0 segs
  ∧ length found = length segs
  ∧ (∀ (i j : nat) (ri rj : range),
       found !! i = Some ri → found !! j = Some rj → i < j →
       range_start ri < range_start rj ∧ range_stop ri ≤ range_start rj)
  ∧ _find_roll_expr_indices (build segs (py " and " ++ OPEN ++ py "oops"))
    = found.
Proof.
  apply (locator_yields_one_range_per_pair
           [(py "I hit ", py "1d20+5"); (py " for ", py "1d6")]
           (py " damage ]] done") (py " and ") (py "oops")).
  - repeat (constructor; [split; reflexivity|]). constructor.
  - reflexivity.
  - reflexivity.
  - reflexivity.
Defined.

(** ** Words *)

Lemma word_after_word (s : str) : word_of s ++ after_word s = s.
Proof.
  induction s as [|c s IH]; simpl; [done|].
  destruct (isspace c); simpl; [done|by rewrite IH].
Qed.

Lemma after_word_head (s : str) : starts_word (after_word s) = false.
Proof.
  induction s as [|c s IH]; simpl; [done|].
  destruct (isspace c) eqn:E; simpl; [by rewrite E|done].
Qed.

Lemma lstrip_head (s : str) : lstrip s = [] ∨ starts_word (lstrip s) = true.
Proof.
  induction s as [|c s IH]; simpl; [by left|].
  destruct (isspace c) eqn:E; [done|]. right. simpl. by rewrite E.
Qed.

Lemma lstrip_decompose (s : str) :
  ∃ ws, s = ws ++ lstrip s
        ∧ ∀ t, count_words false (ws ++ t) = count_words false t.
Proof.
  induction s as [|c s (ws & Hs & Hc)]; simpl.
  - by exists [].
  - destruct (isspace c) eqn:E.
    + exists (c :: ws). split; [by rewrite Hs at 1|].
      intros t. simpl. rewrite E. apply Hc.
    + by exists [].
Qed.

Lemma count_words_lstrip (s : str) :
  count_words false (lstrip s) = count_words false s.
Proof.
  destruct (lstrip_decompose s) as (ws & Hs & Hc).
  by rewrite Hs at 2.
Qed.

Lemma count_words_flag (s : str) :
  count_words false s
  = count_words true s + (if starts_word s then 1 else 0).
Proof.
  destruct s as [|c s]; simpl; [done|].
  destruct (isspace c); simpl; lia.
Qed.

Lemma count_words_after_word (s : str) :
  count_words true s = count_words false (after_word s).
Proof.
  induction s as [|c s IH]; simpl; [done|].
  destruct (isspace c) eqn:E; simpl; [by rewrite E|done].
Qed.

(** A text that starts with a word has one word more than what follows
    that word. *)
Lemma count_words_word (s : str) :
  starts_word s = true →
  count_words false s = S (count_words false (after_word s)).
Proof.
  destruct s as [|c s]; simpl; [done|].
  destruct (isspace c); simpl; [done|].
  intros _. by rewrite count_words_after_word.
Qed.

Lemma count_words_word_app (s t : str) :
  starts_word s = true → starts_word t = false →
  count_words false (word_of s ++ t) = S (count_words false t).
Proof.
  intros Hs Ht.
  assert (∀ u, count_words true (word_of u ++ t) = count_words false t) as Hin.
  { induction u as [|c u IH]; simpl.
    - rewrite (count_words_flag t), Ht. lia.
    - destruct (isspace c) eqn:E; simpl; [|by rewrite E].
      rewrite (count_words_flag t), Ht. lia. }
  destruct s as [|c s]; simpl in *; [done|].
  destruct (isspace c) eqn:E; simpl in *; [done|].
  by rewrite E, Hin.
Qed.

Lemma count_words_take (s : str) :
  ∀ (b : bool) (k : nat), count_words b (take k s) ≤ count_words b s.
Proof.
  induction s as [|c s IH]; intros b [|k]; simpl; try lia.
  destruct (isspace c); [apply IH|].
  specialize (IH true k). lia.
Qed.

Lemma count_words_drop (s : str) (k : nat) :
  count_words false (drop k s) ≤ count_words false s.
Proof.
  revert s; induction k as [|k IH]; intros [|c s]; simpl; try lia.
  specialize (IH s). destruct (isspace c); [done|].
  rewrite (count_words_flag s) in IH. destruct (starts_word s); lia.
Qed.

Lemma count_words_le_length (s : str) (b : bool) :
  count_words b s ≤ length s.
Proof.
  revert b; induction s as [|c s IH]; intros b; simpl; [done|].
  destruct (isspace c); [specialize (IH false); lia|].
  specialize (IH true). destruct b; lia.
Qed.

Lemma split_0 (s : str) :
  split 0 s = match lstrip s with [] => [] | r => [r] end.
Proof. reflexivity. Qed.

Lemma split_S (n : nat) (s : str) :
  split (S n) s = match lstrip s with
                  | [] => []
                  | s1 => word_of s1 :: split n (after_word s1)
                  end.
Proof. reflexivity. Qed.

(** What [split] returns: either all the words of the text, or [n] words
    and a remainder that starts with a word and runs to the end. *)
Lemma split_spec (n : nat) :
  ∀ s : str,
    (length (split n s) ≤ n → count_words false s = length (split n s))
    ∧ (n < length (split n s) →
       ∃ pre rem, s = pre ++ rem ∧ last (split n s) = Some rem
                  ∧ count_words false pre = n ∧ rem ≠ []).
Proof.
  induction n as [|n IH]; intros s; [rewrite split_0|rewrite split_S];
    destruct (lstrip_decompose s) as (ws & Hs & Hws);
    pose proof (lstrip_head s) as Hhead;
    pose proof (count_words_lstrip s) as Hcount;
    destruct (lstrip s) as [|c s1] eqn:E.
  - split; [done|simpl; lia].
  - split; [simpl; lia|]. intros _.
    exists ws, (c :: s1). split_and!; [done|done| |done].
    specialize (Hws []). by rewrite app_nil_r in Hws.
  - split; [done|simpl; lia].
  - destruct Hhead as [|Hhead]; [done|].
    destruct (IH (after_word (c :: s1))) as [IHle IHgt].
    rewrite <- Hcount, (count_words_word _ Hhead).
    cbv zeta. split; cbn [length]; intros Hlen.
    + rewrite IHle; [done|lia].
    + destruct IHgt as (pre & rem & Hrest & Hlast & Hpre & Hrem); [lia|].
      exists (ws ++ word_of (c :: s1) ++ pre), rem.
      split_and!; [| | |done].
      * by rewrite <- !(assoc_L (++)), <- Hrest, word_after_word.
      * destruct (split n (after_word (c :: s1))); [simpl in Hlen; lia|done].
      * rewrite Hws. rewrite count_words_word_app; [by rewrite Hpre|done|].
        pose proof (after_word_head (c :: s1)) as Hh. rewrite Hrest in Hh.
        destruct pre; [done|]. done.
Qed.

Lemma split_length (n : nat) (s : str) : length (split n s) ≤ S n.
Proof.
  revert s; induction n as [|n IH]; intros s;
    [rewrite split_0|rewrite split_S];
    destruct (lstrip s) as [|c s1]; cbv zeta; cbn [length]; try lia.
  specialize (IH (after_word (c :: s1))). lia.
Qed.

(** The one-pass count is the length of [s.split()]. *)
Lemma tokens_count_words (s : str) : tokens s = count_words false s.
Proof.
  unfold tokens, split_all.
  destruct (split_spec (length s) s) as [Hle Hgt].
  destruct (decide (length (split (length s) s) ≤ length s)) as [H|H];
    [by rewrite Hle|].
  destruct Hgt as (pre & rem & Hs & _ & Hpre & Hrem); [lia|].
  pose proof (count_words_le_length pre false) as Hlen.
  apply (f_equal length) in Hs. rewrite length_app in Hs.
  destruct rem; [done|]. simpl in Hs. lia.
Qed.

Lemma count_words_snoc (s : str) :
  ∀ (b : bool) (c : char),
    count_words b (s ++ [c])
    = count_words b s
      + (if isspace c then 0 else if ends_word b s then 0 else 1).
Proof.
  induction s as [|d s IH]; intros b c; simpl.
  - unfold ends_word; simpl. destruct (isspace c), b; done.
  - assert (Hends : ends_word b (d :: s) = ends_word (negb (isspace d)) s).
    { unfold ends_word. destruct s as [|e s']; [done|].
      rewrite last_cons_cons.
      destruct (last (e :: s')) eqn:E; [done|]. by apply last_None in E. }
    rewrite Hends.
    destruct (isspace d); simpl; rewrite IH; lia.
Qed.

(** A text read backwards has as many words. *)
Lemma count_words_reverse (s : str) :
  count_words false (reverse s) = count_words false s.
Proof.
  induction s as [|c s IH]; [done|].
  rewrite reverse_cons, count_words_snoc, IH. simpl.
  destruct (isspace c); [lia|].
  rewrite (count_words_flag s).
  unfold ends_word. rewrite last_reverse.
  destruct s as [|d s]; simpl; [done|].
  destruct (isspace d); simpl; lia.
Qed.

Lemma count_words_rstrip (s : str) :
  count_words false (rstrip s) = count_words false s.
Proof.
  unfold rstrip.
  by rewrite count_words_reverse, count_words_lstrip, count_words_reverse.
Qed.

(** The after-window of a fragment: what is kept once the last item of an
    overlong [split] has been cut off holds at most [n] words. *)
Lemma after_cut_words (n : nat) (frag : str) :
  let bits := split n frag in
  let cut := if n <? length bits
             then length (default [] (last bits))
             else 0 in
  cut ≤ length frag
  ∧ count_words false (take (length frag - cut) frag) ≤ n.
Proof.
  simpl. destruct (split_spec n frag) as [Hle Hgt].
  destruct (Nat.ltb_spec n (length (split n frag))) as [H|H].
  - destruct Hgt as (pre & rem & Hs & -> & Hpre & _); [done|]. simpl.
    rewrite Hs at 1 2 3. rewrite length_app.
    split; [lia|].
    replace (length pre + length rem - length rem) with (length pre) by lia.
    by rewrite take_app_length, Hpre.
  - split; [lia|]. rewrite Nat.sub_0_r, firstn_all, Hle; done.
Qed.

(** The before-window of a fragment, likewise, with the first item of an
    overlong [rsplit] cut off. *)
Lemma before_cut_words (n : nat) (frag : str) :
  let bits := rsplit n frag in
  let cut := if n <? length bits
             then length (default [] (head bits))
             else 0 in
  cut ≤ length frag ∧ count_words false (drop cut frag) ≤ n.
Proof.
  simpl. unfold rsplit.
  rewrite length_reverse, length_fmap, head_reverse, fmap_last.
  destruct (split_spec n (reverse frag)) as [Hle Hgt].
  destruct (Nat.ltb_spec n (length (split n (reverse frag)))) as [H|H].
  - destruct Hgt as (pre & rem & Hs & -> & Hpre & _); [done|]. simpl.
    apply (f_equal reverse) in Hs.
    rewrite reverse_involutive, reverse_app in Hs. subst frag.
    rewrite length_reverse, length_app, length_reverse. split; [lia|].
    rewrite <- (length_reverse rem), drop_app_length.
    by rewrite count_words_reverse, Hpre.
  - split; [lia|]. rewrite drop_0.
    rewrite <- (count_words_reverse frag), Hle; done.
Qed.

(** ** The two clamping passes *)

Lemma start_boundaries_closed (rest : list window) :
  ∀ (pre : list window) (p : window),
    start_boundaries (S (length pre)) rest (pre ++ p :: rest)
    = pre ++ p :: clamp_starts (Some (w_end p)) rest.
Proof.
  induction rest as [|w rest IH]; intros pre p; simpl; [done|].
  rewrite Nat.sub_0_r, list_lookup_middle by done.
  replace (S (length pre)) with (length (pre ++ [p]))
    by (rewrite length_app; simpl; lia).
  replace (pre ++ p :: w :: rest) with ((pre ++ [p]) ++ w :: rest)
    by (by rewrite <- (assoc_L (++))).
  rewrite insert_app_r_alt, Nat.sub_diag by lia. simpl.
  rewrite (IH (pre ++ [p])). by rewrite <- (assoc_L (++)).
Qed.

Lemma forward_pass_closed (idxs : list window) :
  forward_pass idxs = clamp_starts None idxs.
Proof.
  destruct idxs as [|p rest]; [done|].
  unfold forward_pass. simpl drop. rewrite drop_0.
  apply (start_boundaries_closed rest []).
Qed.

Lemma clamp_ends_cons (w next : window) (l : list window) :
  clamp_ends (w :: next :: l)
  = set_after_idx (min (after_idx w) (before_idx next)) w
      :: clamp_ends (next :: l).
Proof. reflexivity. Qed.

Lemma end_boundaries_closed (snapshot : list window) :
  ∀ (pre : list window) (z : window),
    end_boundaries (length pre) snapshot (pre ++ snapshot ++ [z])
    = pre ++ clamp_ends (snapshot ++ [z]).
Proof.
  induction snapshot as [|w rest IH]; intros pre z; [done|].
  assert (∃ next l, rest ++ [z] = next :: l) as (next & l & E)
    by (destruct rest; eauto).
  cbn [app end_boundaries]. rewrite E.
  rewrite lookup_app_r by lia.
  replace (length pre + 1 - length pre) with 1 by lia. cbn [lookup list_lookup].
  rewrite insert_app_r_alt, Nat.sub_diag by lia. cbn [insert list_insert].
  rewrite clamp_ends_cons, <- E.
  set (w' := set_after_idx _ w).
  replace (S (length pre)) with (length (pre ++ [w']))
    by (rewrite length_app; simpl; lia).
  replace (pre ++ w' :: rest ++ [z]) with ((pre ++ [w']) ++ rest ++ [z])
    by (by rewrite <- (assoc_L (++))).
  rewrite IH. by rewrite <- (assoc_L (++)).
Qed.

Lemma backward_pass_closed (idxs : list window) :
  backward_pass idxs = clamp_ends idxs.
Proof.
  destruct idxs as [|z snapshot _] using rev_ind; [done|].
  unfold backward_pass. rewrite length_app. simpl.
  replace (length snapshot + 1 - 1) with (length snapshot) by lia.
  rewrite take_app_length.
  apply (end_boundaries_closed snapshot []).
Qed.

Lemma clamp_closed (idxs : list window) :
  clamp idxs = clamp_ends (clamp_starts None idxs).
Proof.
  unfold clamp. by rewrite forward_pass_closed, backward_pass_closed.
Qed.

Lemma clamp_ends_head (idxs : list window) :
  before_idx <$> head (clamp_ends idxs) = before_idx <$> head idxs.
Proof. destruct idxs as [|w [|next l]]; done. Qed.

Lemma clamp_ends_step (w : window) (l : list window) :
  clamp_ends (w :: l)
  = match before_idx <$> head l with
    | Some b => set_after_idx (min (after_idx w) b) w
    | None => w
    end :: clamp_ends l.
Proof. destruct l; done. Qed.

Lemma clamp_ends_idempotent (idxs : list window) :
  clamp_ends (clamp_ends idxs) = clamp_ends idxs.
Proof.
  induction idxs as [|w l IH]; [done|].
  rewrite (clamp_ends_step w l), clamp_ends_step, clamp_ends_head, IH.
  f_equal. destruct (before_idx <$> head l); [|done].
  destruct w; unfold set_after_idx; simpl. f_equal. lia.
Qed.

Lemma clamp_starts_ends (idxs : list window) :
  ∀ prev : option nat,
    clamp_starts prev (clamp_ends (clamp_starts prev idxs))
    = clamp_ends (clamp_starts prev idxs).
Proof.
  induction idxs as [|w l IH]; intros prev; [done|].
  cbn [clamp_starts]. rewrite clamp_ends_step. cbn [clamp_starts].
  f_equal.
  - destruct prev as [e|], (before_idx <$> head _); destruct w;
      unfold set_before_idx, set_after_idx; simpl; f_equal; lia.
  - replace (w_end _) with (w_end w); [apply IH|].
    by destruct prev, (before_idx <$> head _).
Qed.

Lemma clamp_clamp (idxs : list window) : clamp (clamp idxs) = clamp idxs.
Proof.
  rewrite !clamp_closed.
  by rewrite clamp_starts_ends, clamp_ends_idempotent.
Qed.

(** C9: the two-pass clamp is idempotent; running the forward and then
    the backward pass again on an index list that has been clamped, that
    of any text in particular, changes no window. *)
Theorem clamp_idempotent :
  (∀ idxs : list window, clamp (clamp idxs) = clamp idxs)
  ∧ (∀ (content : str) (context_before context_after max_context_len : nat),
       clamp (windows content context_before context_after max_context_len)
       = windows content context_before context_after max_context_len).
Proof.
  split; [apply clamp_clamp|].
  intros. apply clamp_clamp.
Qed.

(** ** The locator on any text *)

Lemma prefixb_pair (c : char) (s : str) :
  prefixb [c; c] s = true → s !! 0 = Some c ∧ s !! 1 = Some c.
Proof.
  destruct s as [|a [|b s]]; simpl; try done.
  - by rewrite andb_false_r.
  - rewrite andb_true_r. by intros [->%N.eqb_eq ->%N.eqb_eq]%andb_prop.
Qed.

(** Two different doubled characters do not overlap. *)
Lemma pairs_apart (c d : char) (content : str) (a b : nat) :
  c ≠ d →
  prefixb [c; c] (drop a content) = true →
  prefixb [d; d] (drop b content) = true →
  a ≤ b → a + 2 ≤ b.
Proof.
  intros Hne [Ha0 Ha1]%prefixb_pair [Hb0 Hb1]%prefixb_pair Hle.
  rewrite lookup_drop in Ha0, Ha1, Hb0, Hb1.
  destruct (decide (b = a)) as [->|]; [congruence|].
  destruct (decide (b = a + 1)) as [->|]; [|lia].
  rewrite Nat.add_0_r in Hb0. congruence.
Qed.

(** The loop never runs out of fuel. *)
Lemma find_roll_loop_total (content : str) :
  ∀ fuel e : nat,
    length content - e < fuel →
    is_Some (find_roll_loop fuel content e).
Proof.
  induction fuel as [|fuel IH]; intros e Hfuel; [lia|].
  rewrite find_roll_loop_S.
  destruct (find [91; 91]%N content e) as [start|] eqn:Hopen; [|done].
  destruct (find [93; 93]%N content start) as [e'|] eqn:Hclose; [|done].
  apply find_Some in Hopen as (Hle & _ & Hopen).
  apply find_Some in Hclose as (Hle' & Hlen & Hclose).
  assert (start + 2 ≤ e')
    by (by apply (pairs_apart 91%N 93%N content)).
  simpl in Hlen.
  destruct (IH e') as [l ->]; [lia|]. done.
Qed.

Lemma find_roll_loop_chain (content : str) :
  ∀ (fuel e lo : nat) (l : list range),
    find_roll_loop fuel content e = Some l →
    (∀ start, find [91; 91]%N content e = Some start → lo ≤ start) →
    ranges_chain lo (length content) l.
Proof.
  induction fuel as [|fuel IH]; intros e lo l; [done|].
  rewrite find_roll_loop_S. intros Hloop Hlo.
  destruct (find [91; 91]%N content e) as [start|] eqn:Hopen;
    [|by injection Hloop as <-].
  destruct (find [93; 93]%N content start) as [e'|] eqn:Hclose;
    [|by injection Hloop as <-].
  destruct (find_roll_loop fuel content e') as [l'|] eqn:Hrec; [|done].
  injection Hloop as <-.
  apply find_Some in Hopen as (Hle & _ & Hopen).
  apply find_Some in Hclose as (Hle' & Hlen & Hclose).
  assert (start + 2 ≤ e')
    by (by apply (pairs_apart 91%N 93%N content)).
  simpl in Hlen. simpl.
  split_and!; [by apply Hlo|done|lia|done|lia|].
  apply (IH e'); [done|].
  intros start' (Hs & _ & Hopen')%find_Some.
  apply (pairs_apart 93%N 91%N content); done.
Qed.

(** More fuel changes nothing: the list of ranges is the result of the
    loop whenever it has fuel for every character. *)
Lemma find_roll_loop_fuel (content : str) :
  ∀ (fuel fuel' e : nat) (l : list range),
    find_roll_loop fuel content e = Some l → fuel ≤ fuel' →
    find_roll_loop fuel' content e = Some l.
Proof.
  induction fuel as [|fuel IH]; intros [|fuel'] e l; try done; [lia|].
  rewrite !find_roll_loop_S. intros Hl Hle.
  destruct (find [91; 91]%N content e) as [start|]; [|done].
  destruct (find [93; 93]%N content start) as [e'|]; [|done].
  destruct (find_roll_loop fuel content e') as [l'|] eqn:E; [|done].
  by rewrite (IH fuel' e' l' E) by lia.
Qed.

Lemma find_roll_expr_indices_total (content : str) (fuel : nat) :
  length content < fuel →
  find_roll_loop fuel content 0 = Some (_find_roll_expr_indices content).
Proof.
  intros Hfuel. unfold _find_roll_expr_indices.
  destruct (find_roll_loop_total content (S (length content)) 0) as [l Hl];
    [lia|].
  rewrite Hl. simpl. apply (find_roll_loop_fuel _ _ _ _ _ Hl). lia.
Qed.

Lemma find_roll_expr_indices_chain (content : str) :
  ranges_chain 0 (length content) (_find_roll_expr_indices content).
Proof.
  unfold _find_roll_expr_indices.
  destruct (find_roll_loop_total content (S (length content)) 0) as [l Hl];
    [lia|].
  rewrite Hl. simpl.
  apply (find_roll_loop_chain content _ 0 0 l Hl). lia.
Qed.

(** ** Windows before clamping *)

Lemma slice_drop (content : str) (a b k : nat) :
  slice content (a + k) b = drop k (slice content a b).
Proof.
  unfold slice. rewrite skipn_firstn_comm, drop_drop.
  f_equal. lia.
Qed.

Lemma slice_take (content : str) (a b b' : nat) :
  b' ≤ b → slice content a b' = take (b' - a) (slice content a b).
Proof.
  intros Hle. unfold slice. rewrite take_take. f_equal. lia.
Qed.

Lemma slice_length (content : str) (a b : nat) :
  b ≤ length content → length (slice content a b) = b - a.
Proof.
  intros Hle. unfold slice. rewrite length_take, length_drop. lia.
Qed.

Lemma raw_window_spec (content : str) (nb na mcl : nat)
    (start e_start e_end stop : nat) :
  start ≤ stop → stop ≤ length content →
  let w := raw_window content nb na mcl (start, e_start, e_end, stop) in
  w_start w = start ∧ w_end w = stop
  ∧ before_idx w ≤ start ∧ stop ≤ after_idx w
  ∧ within_words content nb na w.
Proof.
  intros Hle Hlen. unfold raw_window. cbv zeta.
  set (b0 := 0 `max` (start - mcl)).
  set (a0 := length content `min` (stop + mcl)).
  pose proof (before_cut_words nb (slice content b0 start)) as [Hb Hbw].
  pose proof (after_cut_words na (slice content stop a0)) as [Ha Haw].
  cbv zeta in Hb, Hbw, Ha, Haw.
  rewrite slice_length in Hb, Ha, Haw by lia.
  assert (Hafter : ∀ L, count_words false
                           (take (a0 - stop - L) (slice content stop a0)) ≤ na
                       → count_words false (slice content stop (a0 - L)) ≤ na).
  { intros L HL. rewrite (slice_take content stop a0 (a0 - L)) by lia.
    by replace (a0 - L - stop) with (a0 - stop - L) by lia. }
  unfold within_words. simpl.
  destruct (nb <? _); destruct (na <? _); simpl in *;
    (split_and!; [done|done|lia|lia| |]).
  all: try (rewrite slice_drop; done).
  all: try (replace b0 with (b0 + 0) by lia; rewrite slice_drop; done).
  all: try (by apply Hafter).
  all: rewrite <- (Nat.sub_0_r a0) at 1; by apply Hafter.
Qed.

Lemma raw_windows_of_chain (content : str) (nb na mcl : nat)
    (l : list range) :
  ∀ lo : nat,
    ranges_chain lo (length content) l →
    raw_chain lo (raw_window content nb na mcl <$> l)
    ∧ Forall (within_words content nb na) (raw_window content nb na mcl <$> l).
Proof.
  induction l as [|[[[start e_start] e_end] stop] l IH]; intros lo; [done|].
  intros (Hlo & -> & Hexpr & -> & Hhi & Hrest).
  destruct (raw_window_spec content nb na mcl start (start + 2) e_end
              (e_end + 2)) as (Hs & He & Hb & Ha & Hw); [lia|done|].
  destruct (IH _ Hrest) as [IHc IHw].
  cbn [fmap list_fmap raw_chain]. rewrite Hs, He.
  split; [|by constructor].
  split_and!; [done|done|lia|done|done].
Qed.

Lemma raw_windows_chain (content : str) (nb na mcl : nat) :
  raw_chain 0 (raw_windows content nb na mcl)
  ∧ Forall (within_words content nb na) (raw_windows content nb na mcl).
Proof.
  apply raw_windows_of_chain, find_roll_expr_indices_chain.
Qed.

(** ** Windows after clamping *)

Lemma shrinks_refl (w : window) : shrinks w w.
Proof. unfold shrinks. split_and!; done. Qed.

Lemma shrinks_trans (w1 w2 w3 : window) :
  shrinks w1 w2 → shrinks w2 w3 → shrinks w1 w3.
Proof. unfold shrinks. intros ? ?. split_and!; lia. Qed.

Lemma clamp_starts_shrinks (idxs : list window) :
  ∀ prev, Forall2 shrinks idxs (clamp_starts prev idxs).
Proof.
  induction idxs as [|w l IH]; intros prev; simpl; constructor; [|apply IH].
  destruct prev; [|apply shrinks_refl].
  unfold shrinks; simpl. split_and!; try done. lia.
Qed.

Lemma clamp_ends_shrinks (idxs : list window) :
  Forall2 shrinks idxs (clamp_ends idxs).
Proof.
  induction idxs as [|w l IH]; [constructor|].
  rewrite clamp_ends_step. constructor; [|done].
  destruct (before_idx <$> head l); [|apply shrinks_refl].
  unfold shrinks; simpl. split_and!; try done. lia.
Qed.

Lemma clamp_shrinks (idxs : list window) :
  Forall2 shrinks idxs (clamp idxs).
Proof.
  rewrite clamp_closed.
  eapply Forall2_trans;
    [|apply clamp_starts_shrinks|apply clamp_ends_shrinks].
  intros. by eapply shrinks_trans.
Qed.

Lemma within_words_shrinks (content : str) (nb na : nat) (w w' : window) :
  shrinks w w' →
  within_words content nb na w → within_words content nb na w'.
Proof.
  intros (Hs & _ & _ & He & Hb & Ha) [Hwb Hwa].
  unfold within_words. rewrite Hs, He. split.
  - replace (before_idx w') with (before_idx w + (before_idx w' - before_idx w))
      by lia.
    rewrite slice_drop.
    etrans; [apply count_words_drop|done].
  - rewrite (slice_take content _ (after_idx w)) by done.
    etrans; [apply count_words_take|done].
Qed.

Lemma clamp_chain (idxs : list window) :
  ∀ prev : option nat,
    raw_chain (default 0 prev) idxs →
    chain (default 0 prev) (clamp_ends (clamp_starts prev idxs)).
Proof.
  induction idxs as [|w l IH]; intros prev; [done|].
  intros (Hlo & Hb & Hse & Ha & Hrest).
  specialize (IH (Some (w_end w)) Hrest).
  cbn [clamp_starts]. rewrite clamp_ends_step.
  set (rest := clamp_starts (Some (w_end w)) l) in *.
  assert (Hweak : ∀ lo, (∀ b, before_idx <$> head (clamp_ends rest) = Some b
                              → lo ≤ b) → chain lo (clamp_ends rest)).
  { intros lo Hle. destruct (clamp_ends rest) as [|x xs]; [done|].
    destruct IH as (_ & ? & ? & ? & ?).
    split_and!; try done. by apply Hle. }
  assert (Hhead : ∀ b, before_idx <$> head rest = Some b → w_end w ≤ b).
  { intros b. rewrite <- clamp_ends_head.
    destruct (clamp_ends rest) as [|x xs]; [done|].
    destruct IH as (? & _). simpl. by intros [= <-]. }
  destruct (before_idx <$> head rest) as [b|] eqn:E.
  - specialize (Hhead b eq_refl).
    destruct prev as [e|]; simpl in *;
      (split_and!; [lia|lia|lia|lia|]); apply Hweak;
      intros b'; rewrite clamp_ends_head, E; intros [= <-]; lia.
  - destruct prev as [e|]; simpl in *;
      (split_and!; [lia|lia|lia|lia|]); apply Hweak;
      intros b'; by rewrite clamp_ends_head, E.
Qed.

Lemma chain_lookup (idxs : list window) :
  ∀ (lo i : nat) (w : window),
    chain lo idxs → idxs !! i = Some w →
    lo ≤ before_idx w ∧ before_idx w ≤ w_start w ∧ w_start w ≤ w_end w
    ∧ w_end w ≤ after_idx w.
Proof.
  induction idxs as [|x l IH]; intros lo i w; [done|].
  intros (? & ? & ? & ? & Hrest). destruct i as [|i]; simpl.
  - by intros [= <-].
  - intros Hi. destruct (IH _ _ _ Hrest Hi) as (? & ? & ? & ?).
    split_and!; [lia|done..].
Qed.

Lemma chain_ordered (idxs : list window) :
  ∀ (lo i j : nat) (wi wj : window),
    chain lo idxs → idxs !! i = Some wi → idxs !! j = Some wj → i < j →
    after_idx wi ≤ before_idx wj.
Proof.
  induction idxs as [|x l IH]; intros lo i j wi wj; [done|].
  intros (? & ? & ? & ? & Hrest).
  destruct i as [|i], j as [|j]; simpl; try lia.
  - intros [= <-] Hj _. by destruct (chain_lookup _ _ _ _ Hrest Hj).
  - intros Hi Hj Hlt. eapply IH; [exact Hrest|exact Hi|exact Hj|lia].
Qed.

Lemma windows_chain (content : str) (nb na mcl : nat) :
  chain 0 (windows content nb na mcl).
Proof.
  unfold windows. rewrite clamp_closed.
  apply (clamp_chain _ None), raw_windows_chain.
Qed.

(** C1: once both clamping passes have run, the windows of two different
    candidates do not overlap.  Each window runs from the start of its
    before-window over its expression to the end of its after-window
    ([before_idx <= start <= end <= after_idx]); the earlier candidate's
    window ends before the later one's starts; so no index of the text
    lies in the after-window of one candidate and in the before-window
    of another, nor anywhere in the windows of both. *)
Theorem windows_disjoint (content : str)
    (context_before context_after max_context_len : nat)
    (i j : nat) (wi wj : window) (p : nat) :
  windows content context_before context_after max_context_len !! i
    = Some wi →
  windows content context_before context_after max_context_len !! j
    = Some wj →
  i ≠ j →
  (before_idx wi ≤ w_start wi ∧ w_start wi ≤ w_end wi
   ∧ w_end wi ≤ after_idx wi)
  ∧ (before_idx wj ≤ w_start wj ∧ w_start wj ≤ w_end wj
     ∧ w_end wj ≤ after_idx wj)
  ∧ (i < j → after_idx wi ≤ before_idx wj)
  ∧ ¬ (in_after wi p ∧ in_before wj p)
  ∧ ¬ (before_idx wi ≤ p < after_idx wi ∧ before_idx wj ≤ p < after_idx wj).
Proof.
  intros Hi Hj Hne.
  pose proof (windows_chain content context_before context_after
                max_context_len) as Hchain.
  destruct (chain_lookup _ _ _ _ Hchain Hi) as (_ & ? & ? & ?).
  destruct (chain_lookup _ _ _ _ Hchain Hj) as (_ & ? & ? & ?).
  assert (after_idx wi ≤ before_idx wj ∨ after_idx wj ≤ before_idx wi)
    as Hapart.
  { destruct (decide (i < j)) as [Hlt|Hge].
    - left. by apply (chain_ordered _ _ _ _ _ _ Hchain Hi Hj).
    - right. apply (chain_ordered _ _ _ _ _ _ Hchain Hj Hi). lia. }
  split_and!; [done..|by apply (chain_ordered _ _ _ _ _ _ Hchain Hi Hj)| |].
  - unfold in_after, in_before. lia.
  - lia.
Qed.

(** Two expressions with three words between them: the first candidate's
    after-window is cut back to index 5, where the second candidate's
    before-window starts, and index 7 lies in the latter only. *)
Lemma windows_disjoint_witness :
  let w0 := Window 0 0 2 3 5 5 in
  let w1 := Window 5 12 14 15 17 17 in
  (before_idx w0 ≤ w_start w0 ∧ w_start w0 ≤ w_end w0
   ∧ w_end w0 ≤ after_idx w0)
  ∧ (before_idx w1 ≤ w_start w1 ∧ w_start w1 ≤ w_end w1
     ∧ w_end w1 ≤ after_idx w1)
  ∧ (0 < 1 → after_idx w0 ≤ before_idx w1)
  ∧ ¬ (in_after w0 7 ∧ in_before w1 7)
  ∧ ¬ (before_idx w0 ≤ 7 < after_idx w0 ∧ before_idx w1 ≤ 7 < after_idx w1).
Proof.
  apply (windows_disjoint (py "[[1]] a b c [[2]]") 5 2 128 0 1).
  - reflexivity.
  - reflexivity.
  - lia.
Defined.

Lemma clamp_starts_lookup (idxs : list window) :
  ∀ (prev : option nat) (i : nat) (w p : window),
    idxs !! S i = Some w → idxs !! i = Some p →
    clamp_starts prev idxs !! S i
    = Some (set_before_idx (max (before_idx w) (w_end p)) w).
Proof.
  induction idxs as [|x l IH]; intros prev i w p; [done|].
  destruct i as [|i]; simpl.
  - destruct l as [|y l]; [done|]. by intros [= <-] [= <-].
  - intros Hw Hp. by apply IH.
Qed.

(** C2, as the code has it: in the forward pass every candidate after the
    first gets as its before-window start the maximum of its raw value and
    the index at which the previous candidate's closing delimiter ends
    (where that candidate's after-window starts); the first candidate is
    left as it is. *)
Theorem forward_pass_clamps_to_previous_end (idxs : list window)
    (i : nat) (w prev : window) :
  idxs !! S i = Some w →
  idxs !! i = Some prev →
  forward_pass idxs !! S i
  = Some (set_before_idx (max (before_idx w) (w_end prev)) w)
  ∧ forward_pass idxs !! 0 = idxs !! 0.
Proof.
  intros Hw Hp. rewrite forward_pass_closed. split.
  - by apply clamp_starts_lookup.
  - by destruct idxs.
Qed.

Lemma forward_pass_clamps_to_previous_end_witness :
  let idxs := raw_windows (py "[[1]] a b c [[2]]") 5 2 128 in
  forward_pass idxs !! 1 = Some (Window 5 12 14 15 17 17)
  ∧ forward_pass idxs !! 0 = Some (Window 0 0 2 3 5 10).
Proof.
  apply (forward_pass_clamps_to_previous_end
           (raw_windows (py "[[1]] a b c [[2]]") 5 2 128) 0
           (Window 0 12 14 15 17 17) (Window 0 0 2 3 5 10)).
  - reflexivity.
  - reflexivity.
Defined.

(** C2 as stated fails: in [[[1]] a b c [[2]]] the first candidate's raw
    after-window ends at index 10, yet the second candidate's
    before-window is clamped to start at index 5, where the first closing
    delimiter ends. *)
Lemma forward_pass_not_clamped_to_after_end :
  let idxs := raw_windows (py "[[1]] a b c [[2]]") 5 2 128 in
  ¬ (∀ (i : nat) (w prev w' : window),
       idxs !! S i = Some w → idxs !! i = Some prev →
       forward_pass idxs !! S i = Some w' →
       before_idx w' = max (before_idx w) (after_idx prev)).
Proof.
  intros idxs Hclaim.
  specialize (Hclaim 0 (Window 0 12 14 15 17 17) (Window 0 0 2 3 5 10)
                (Window 5 12 14 15 17 17) eq_refl eq_refl eq_refl).
  simpl in Hclaim. lia.
Qed.

(** C4: the before-context of every extracted candidate, without its
    ellipsis marker, holds at most [context_before] whitespace-separated
    tokens, and its after-context at most [context_after]. *)
Theorem context_word_limits (content : str)
    (context_before context_after max_context_len : nat)
    (i : nat) (out : str * str * str) :
  _find_inline_exprs content context_before context_after max_context_len
    !! i = Some out →
  ∃ w : window,
    windows content context_before context_after max_context_len !! i
      = Some w
    ∧ out.1.2 = (if 0 <? before_idx w
                 then ELLIPSIS ++ before_text content w
                 else before_text content w)
    ∧ out.2 = (if after_idx w <? length content
               then after_text content w ++ ELLIPSIS
               else after_text content w)
    ∧ tokens (before_text content w) ≤ context_before
    ∧ tokens (after_text content w) ≤ context_after.
Proof.
  unfold _find_inline_exprs. rewrite list_lookup_fmap.
  destruct (windows _ _ _ _ !! i) as [w|] eqn:Hw; [|done].
  intros [= <-]. exists w. split_and!; [done|done|done| |].
  all: unfold windows in Hw;
    destruct (Forall2_lookup_r _ _ _ _ _ (clamp_shrinks _) Hw)
      as (w0 & Hw0 & Hshrink);
    destruct (raw_windows_chain content context_before context_after
                max_context_len) as [_ Hwords];
    rewrite Forall_lookup in Hwords;
    destruct (within_words_shrinks _ _ _ _ _ Hshrink (Hwords _ _ Hw0))
      as [Hb Ha];
    rewrite tokens_count_words.
  - unfold before_text. by rewrite count_words_lstrip.
  - unfold after_text. by rewrite count_words_rstrip.
Qed.

(** The defaults, five words before and two after, on a sentence with
    two expressions. *)
Lemma context_word_limits_witness :
  ∃ w : window,
    windows (py "I swing at the big goblin [[1d20+5]] and deal [[1d8]] damage")
      CONTEXT_BEFORE CONTEXT_AFTER MAX_CONTEXT_LEN !! 0 = Some w
    ∧ py "...swing at the big goblin "
      = (if 0 <? before_idx w
         then ELLIPSIS ++ before_text
                (py "I swing at the big goblin [[1d20+5]] and deal [[1d8]] damage") w
         else before_text
                (py "I swing at the big goblin [[1d20+5]] and deal [[1d8]] damage") w)
    ∧ py "..."
      = (if after_idx w <? length
              (py "I swing at the big goblin [[1d20+5]] and deal [[1d8]] damage")
         then after_text
                (py "I swing at the big goblin [[1d20+5]] and deal [[1d8]] damage") w
              ++ ELLIPSIS
         else after_text
                (py "I swing at the big goblin [[1d20+5]] and deal [[1d8]] damage") w)
    ∧ tokens (before_text
                (py "I swing at the big goblin [[1d20+5]] and deal [[1d8]] damage") w)
      ≤ CONTEXT_BEFORE
    ∧ tokens (after_text
                (py "I swing at the big goblin [[1d20+5]] and deal [[1d8]] damage") w)
      ≤ CONTEXT_AFTER.
Proof.
  apply (context_word_limits
           (py "I swing at the big goblin [[1d20+5]] and deal [[1d8]] damage")
           CONTEXT_BEFORE CONTEXT_AFTER MAX_CONTEXT_LEN 0
           (py "1d20+5", py "...swing at the big goblin ", py "...")).
  reflexivity.
Defined.

(** ** The advantage stripper *)

Lemma rmatch_lit3 (a b c : ascii) (i : nat) (s : str)
    (k : nat → str → option nat) :
  rmatch (lit3 a b c) i s k
  = if prefixb [ch a; ch b; ch c] s then k (3 + i) (drop 3 s) else None.
Proof.
  destruct s as [|x [|y [|z t]]]; simpl;
    rewrite ?(N.eqb_sym x), ?(N.eqb_sym y), ?(N.eqb_sym z);
    repeat (destruct (_ =? _)%N; simpl; try done); done.
Qed.

Lemma spaces_plus_accept (s : str) (i : nat) :
  spaces_plus i s (λ j _, Some j)
  = if starts_word s then None
    else match s with [] => None | _ => Some (i + space_run s) end.
Proof.
  revert i; induction s as [|c s IH]; intros i; simpl; [done|].
  destruct (isspace c) eqn:E; simpl; [|done].
  rewrite IH. destruct s as [|d s]; simpl; [f_equal; lia|].
  destruct (isspace d); simpl; f_equal; lia.
Qed.

Lemma word_stop_accept (s : str) (i : nat) :
  rmatch word_stop i s (λ j _, Some j)
  = if starts_word s then None else Some (i + space_run s).
Proof.
  unfold word_stop. cbn [rmatch]. rewrite spaces_plus_accept.
  destruct s as [|c [|d s]]; simpl; try (f_equal; lia).
  - destruct (isspace c) eqn:E; simpl; [done|].
    destruct (N.eqb_spec c NL) as [->|]; [by vm_compute in E|done].
  - by destruct (isspace c).
Qed.

Lemma prefixb_head (a : char) (p s : str) :
  prefixb (a :: p) s = true → head s = Some a.
Proof.
  destruct s as [|x s]; simpl; [done|].
  by intros [->%N.eqb_eq _]%andb_prop.
Qed.

(** Where [(adv|dis)(\s+|$)] matches, and how far. *)
Lemma match_at_strip (s : str) (i : nat) :
  match_at RE_STRIP i s
  = if token_here s then Some (3 + i + space_run (drop 3 s)) else None.
Proof.
  unfold match_at, RE_STRIP, LIT_ADV, LIT_DIS, token_here.
  cbn [rmatch]. rewrite !rmatch_lit3, !word_stop_accept.
  change (py "adv") with [ch "a"; ch "d"; ch "v"].
  change (py "dis") with [ch "d"; ch "i"; ch "s"].
  destruct (prefixb [ch "a"; ch "d"; ch "v"] s) eqn:Ea;
    destruct (prefixb [ch "d"; ch "i"; ch "s"] s) eqn:Ed; simpl.
  - apply prefixb_head in Ea, Ed. by rewrite Ea in Ed.
  - by destruct (starts_word (drop 3 s)).
  - by destruct (starts_word (drop 3 s)).
  - done.
Qed.

Lemma sub_from_skip (r : regex) (k : nat) :
  ∀ (s : str) (i : nat),
    sub_from r i k s = sub_from r (i + k) 0 (drop k s).
Proof.
  induction k as [|k IH]; intros s i.
  - by rewrite Nat.add_0_r, drop_0.
  - destruct s as [|c s]; [done|]. simpl.
    rewrite IH. by replace (S i + k) with (i + S k) by lia.
Qed.

(** [re.sub] with the stripping pattern deletes tokens and the
    whitespace after them, and nothing else. *)
Lemma sub_from_stripped (n : nat) :
  ∀ (s : str) (i : nat),
    length s ≤ n → stripped s (sub_from RE_STRIP i 0 s).
Proof.
  induction n as [|n IH]; intros [|c s] i Hlen; simpl in Hlen;
    try lia; try apply stripped_nil.
  cbn [sub_from]. rewrite match_at_strip.
  destruct (token_here (c :: s)) eqn:E.
  - replace (3 + i + space_run (drop 3 (c :: s)) - i)
      with (S (2 + space_run (drop 3 (c :: s)))) by lia.
    rewrite sub_from_skip. apply stripped_token; [done|].
    apply IH. rewrite length_drop. lia.
  - apply stripped_keep; [done|]. apply IH. lia.
Qed.

(** C5, as the code has it: when a mode is detected, the cleaned string
    is the input with every [adv] or [dis] that is followed by whitespace
    or by the end of the string deleted together with the whitespace run
    after it, all other text being kept; ["1d20 dis extra"] becomes
    ["1d20 extra"] with mode Disadvantage, and ["advantage"] is returned
    unchanged with mode None. *)
Theorem stripper_deletes_tokens_with_spaces (rollstr : str) :
  (_string_search_adv rollstr).2 ≠ NONE →
  stripped rollstr (_string_search_adv rollstr).1
  ∧ _string_search_adv (py "1d20 dis extra") = (py "1d20 extra", DIS)
  ∧ _string_search_adv (py "advantage") = (py "advantage", NONE).
Proof.
  intros Hmode. split; [|by vm_compute].
  unfold _string_search_adv in *.
  destruct (is_not_None (re_search RE_ADV_OR_DIS rollstr)); [|done].
  simpl. apply (sub_from_stripped (length rollstr)). done.
Qed.

Lemma stripper_deletes_tokens_with_spaces_witness :
  stripped (py "1d20+1 adv") (_string_search_adv (py "1d20+1 adv")).1
  ∧ _string_search_adv (py "1d20 dis extra") = (py "1d20 extra", DIS)
  ∧ _string_search_adv (py "advantage") = (py "advantage", NONE).
Proof.
  apply (stripper_deletes_tokens_with_spaces (py "1d20+1 adv")).
  vm_compute. discriminate.
Defined.

(** C5 as stated fails: the whitespace after the token goes with it, so
    ["1d20 dis extra"] does not become ["1d20  extra"] with its two
    spaces; and a token that ends a longer word, or the token of the other
    mode, is deleted as well. *)
Lemma stripper_not_whole_words_only :
  _string_search_adv (py "1d20 dis extra") ≠ (py "1d20  extra", DIS)
  ∧ _string_search_adv (py "xadv 1d20 adv") = (py "x1d20 ", ADV)
  ∧ _string_search_adv (py "1d20 adv dis") = (py "1d20 ", ADV).
Proof.
  split_and!; [vm_compute; discriminate|by vm_compute..].
Qed.

(** ** The commands *)

Section CommandProperties.
Context `{RollEngine}.

(** C10: on the input ["0/0"] the roll command sends the fixed message and
    returns; the roll engine is not called, the message is not deleted
    and no statistic is updated. *)
Theorem rollCmd_easter_egg (ctx : context) (w : world) :
  rollCmd ctx (py "0/0") w
  = (World (journal w ++ [Send EASTER_EGG false]) (d20_state w), inr tt)
  ∧ EASTER_EGG = py "What do you expect me to do, destroy the universe?".
Proof. done. Qed.

Lemma collect_cons {A B : Type} (f : A → exn + B) (x : A) (rest : list A)
    (ys : list B) :
  collect f (x :: rest) = inr ys →
  ∃ y ys', f x = inr y ∧ collect f rest = inr ys' ∧ ys = y :: ys'.
Proof.
  simpl. destruct (f x) as [e|y]; [done|].
  destruct (collect f rest) as [e|ys']; [done|].
  intros [= <-]. eauto.
Qed.

Lemma collect_length {A B : Type} (f : A → exn + B) (items : list A) :
  ∀ ys, collect f items = inr ys → length ys = length items.
Proof.
  induction items as [|x rest IH]; intros ys Hys.
  - by injection Hys as <-.
  - apply collect_cons in Hys as (y & ys' & _ & Hrest & ->).
    simpl. by rewrite (IH ys').
Qed.

(** The loop when no roll raises and every total can be read. *)
Lemma roll_iterations_ok (a : ast) (adv : AdvType) (dc : option Z) (n : nat) :
  ∀ (st : roll_context) (successes : nat) (results : list roll_result)
    (w : world) (totals : list num),
    length (rolls_of n a adv st) = n →
    collect total (rolls_of n a adv st) = inr totals →
    roll_iterations n a adv dc st successes results w
    = (World (journal w ++ replicate n Roll) (d20_state w),
       inr (successes + successes_of dc totals,
            results ++ rolls_of n a adv st)).
Proof.
  induction n as [|n IH]; intros st successes results w totals Hlen Htot.
  - simpl in *. injection Htot as <-. simpl.
    rewrite !app_nil_r, Nat.add_0_r. by destruct w.
  - cbn [roll_iterations rolls_of] in *.
    destruct (roll_ast st a adv) as [[res|msg|msg|name] st'] eqn:E;
      try done.
    simpl in Hlen. injection Hlen as Hlen.
    apply collect_cons in Htot as (t & ts & Ht & Hts & ->).
    unfold mbind, cmd_bind, emit, read, meets_dc.
    cbn [lift_outcome mret cmd_ret]. rewrite Ht.
    assert (∀ k, roll_iterations n a adv dc st' k (results ++ [res])
                   (World (journal w ++ [Roll]) (d20_state w))
                 = (World (journal w ++ replicate (S n) Roll) (d20_state w),
                    inr (k + successes_of dc ts,
                         results ++ res :: rolls_of n a adv st'))) as Hk.
    { intros k. rewrite (IH st' k _ _ ts) by done. cbn [journal d20_state].
      by rewrite <- !(assoc_L (++)). }
    destruct dc as [d|]; cbn [successes_of].
    + destruct (num_geb t d); rewrite Hk; do 3 f_equal; lia.
    + rewrite Hk. do 3 f_equal. destruct ts; simpl; lia.
Qed.

Lemma sum_totals_ok (results : list roll_result) :
  ∀ (acc : num) (totals : list num),
    collect total results = inr totals →
    sum_totals acc results = inr (foldl num_add acc totals).
Proof.
  induction results as [|res rest IH]; intros acc totals Htot.
  - by injection Htot as <-.
  - apply collect_cons in Htot as (t & ts & Ht & Hts & ->).
    simpl. rewrite Ht. by apply IH.
Qed.

Lemma roll_many_out_ok (header footer : str) (results : list roll_result)
    (lines : list str) (w : world) :
  results ≠ [] →
  collect result_str results = inr lines →
  roll_many_out header footer results w
  = (w, inr (reply_text header footer lines (Z.of_nat (length results)))).
Proof.
  intros Hne Hlines. unfold roll_many_out, reply_text, full_output.
  unfold mbind, cmd_bind, read. rewrite Hlines.
  destruct (1500 <? _); [|done].
  destruct results as [|res rest]; [done|].
  apply collect_cons in Hlines as (l & ls & -> & _ & ->). done.
Qed.

(** A batch in range, the expression parsing, no roll raising and every
    result giving its total and its text: what [_roll_many] does. *)
Lemma roll_many_ok (ctx : context) (iterations : Z) (roll_str : str)
    (dc : option Z) (adv : option AdvType) (w : world) (a : ast)
    (totals : list num) (lines : list str) :
  (1 ≤ iterations ≤ 100)%Z →
  parse roll_str = inr a →
  let n := Z.to_nat iterations in
  let results := rolls_of n a (default NONE adv) new_context in
  length results = n →
  collect total results = inr totals →
  collect result_str results = inr lines →
  _roll_many ctx iterations roll_str dc adv w
  = (World
       (journal w ++ Parse roll_str :: replicate n Roll
          ++ [TryDelete;
              Send (mention ctx ++ [NL]
                      ++ reply_text (roll_many_header a iterations dc)
                           (roll_many_footer (successes_of dc totals)
                              (sum_of totals) dc)
                           lines iterations) true;
              IncreaseStat DICE_ROLLED])
       (d20_state w),
     inr tt).
Proof.
  intros Hrange Hparse n results Hlen Htot Hlines. unfold _roll_many.
  destruct (Z.ltb_spec iterations 1); [lia|].
  destruct (Z.ltb_spec 100 iterations); [lia|]. cbn [orb].
  unfold call_parse, mbind, cmd_bind, emit at 1. rewrite Hparse.
  cbn [mret cmd_ret journal d20_state].
  rewrite (roll_iterations_ok _ _ _ _ _ _ _ _ totals) by done.
  fold n. fold results. unfold read at 1.
  rewrite (sum_totals_ok results _ totals) by done.
  rewrite (roll_many_out_ok _ _ results lines);
    [|intros E; rewrite E in Hlen; simpl in Hlen; lia|done].
  unfold emit. cbn [journal d20_state app]. fold (sum_of totals).
  replace (Z.of_nat (length results)) with iterations
    by (rewrite Hlen; unfold n; lia).
  by rewrite <- !(assoc_L (++)).
Qed.


(** C8: when the reply with one line for every iteration is longer than
    1500 characters, what is sent has the same header and the same
    footer, and between them the first iteration's result and the number
    of results left out. *)
Theorem roll_many_degrades_output (ctx : context) (iterations : Z)
    (roll_str : str) (dc : option Z) (adv : option AdvType) (w : world)
    (a : ast) (totals : list num) (lines : list str) :
  (1 ≤ iterations ≤ 100)%Z →
  parse roll_str = inr a →
  let n := Z.to_nat iterations in
  let results := rolls_of n a (default NONE adv) new_context in
  let header := roll_many_header a iterations dc in
  let footer :=
    roll_many_footer (successes_of dc totals) (sum_of totals) dc in
  length results = n →
  collect total results = inr totals →
  collect result_str results = inr lines →
  1500 < length (full_output header footer lines) →
  ∃ (first : roll_result) (first_line : str),
    head results = Some first
    ∧ result_str first = inr first_line
    ∧ _roll_many ctx iterations roll_str dc adv w
      = (World
           (journal w ++ Parse roll_str :: replicate n Roll
              ++ [TryDelete;
                  Send (mention ctx ++ [NL] ++ header ++ [NL]
                          ++ first_line ++ [NL] ++ py "["
                          ++ str_of_Z (iterations - 1)
                          ++ py " results omitted for output size.]"
                          ++ [NL] ++ footer) true;
                  IncreaseStat DICE_ROLLED])
           (d20_state w),
         inr tt).
Proof.
  intros Hrange Hparse n results header footer Hlen Htot Hlines Hlong.
  rewrite (roll_many_ok ctx iterations roll_str dc adv w a totals lines)
    by done.
  fold n header footer. unfold reply_text.
  apply Nat.ltb_lt in Hlong. rewrite Hlong.
  destruct results as [|first rest] eqn:E; [simpl in Hlen; lia|].
  apply collect_cons in Hlines as (l & ls & Hl & _ & ->).
  exists first, l. by split_and!.
Qed.

(** The lines of a batch whose results all render. *)
Lemma inline_lines_renders (st : roll_context)
    (roll_exprs : list (str * str * str)) (lines : list str)
    (st' : roll_context) :
  renders st roll_exprs lines st' →
  ∀ out, inline_lines st roll_exprs out = inr (out ++ lines).
Proof.
  induction 1 as [st|st expr cb ca rest msg st' lines st'' E _ IH
                  |st expr cb ca rest msg st' lines st'' E _ IH
                  |st expr cb ca rest res s st' lines st'' E Es _ IH];
    intros out; cbn [inline_lines].
  - by rewrite app_nil_r.
  - by rewrite E.
  - rewrite E, IH. by rewrite <- (assoc_L (++)).
  - rewrite E, Es, IH. by rewrite <- (assoc_L (++)).
Qed.

(** A result that does not render ends the batch. *)
Lemma inline_lines_abort (st : roll_context)
    (pre : list (str * str * str)) (lines : list str) (st1 : roll_context) :
  renders st pre lines st1 →
  ∀ expr cb ca post res st2 e out,
    roll_expr st1 expr = (Rolled res, st2) →
    result res = inl e →
    inline_lines st (pre ++ (expr, cb, ca) :: post) out = inl e.
Proof.
  induction 1 as [st|st expr0 cb0 ca0 rest msg st' lines st'' E _ IH
                  |st expr0 cb0 ca0 rest msg st' lines st'' E _ IH
                  |st expr0 cb0 ca0 rest res0 s st' lines st'' E Es _ IH];
    intros expr cb ca post res st2 e out Hroll Hres;
    cbn [app inline_lines].
  - by rewrite Hroll, Hres.
  - rewrite E. by eapply IH.
  - rewrite E. by eapply IH.
  - rewrite E, Es. by eapply IH.
Qed.

(** C6: where the code leaves the claim.  An expression whose roll returns
    a result that raises when it is rendered adds no line with the error
    message: the exception is raised outside the two handlers and ends the
    command, so that the expressions after it are not rolled and no reply
    is sent, whatever lines the expressions before it had given. *)
Theorem inline_rolls_render_error (pre post : list (str * str * str))
    (expr cb ca : str) (lines : list str) (st1 st2 : roll_context)
    (res : roll_result) (e : exn) (w : world) :
  renders new_context pre lines st1 →
  roll_expr st1 expr = (Rolled res, st2) →
  result res = inl e →
  do_inline_rolls (pre ++ (expr, cb, ca) :: post) w = (w, inl e).
Proof.
  intros Hpre Hroll Hres. unfold do_inline_rolls, mbind, cmd_bind, read.
  by rewrite (inline_lines_abort _ _ _ _ Hpre _ cb ca post _ _ _ [] Hroll Hres).
Qed.

End CommandProperties.

(** The toy engine on a message with a roll and a division by zero: the
    roll error is one of reading the result, and no reply is sent. *)
Lemma inline_rolls_render_error_witness :
  do_inline_rolls
    ([(py "1d6", py "a ", py " b")] ++ (py "1/0", py "c ", py " d")
       :: [(py "1d4", py "e ", [])]) toy_world
  = (toy_world, inl (RollError (py "Cannot divide by zero."))).
Proof.
  apply (inline_rolls_render_error (H := toy_engine)
           [(py "1d6", py "a ", py " b")] [(py "1d4", py "e ", [])]
           (py "1/0") (py "c ") (py " d")
           [inline_line (py "a ") (toy_render (py "1d6")) (py " b")]
           1 2 (3%Z, toy_render (py "1/0"))
           (RollError (py "Cannot divide by zero.")) toy_world).
  - eapply renders_rolled; [reflexivity|reflexivity|apply renders_nil].
  - reflexivity.
  - reflexivity.
Defined.


(** The toy engine on 100 iterations of an expression that renders at
    some length: the full reply would take more than 1500 characters. *)
Lemma roll_many_degrades_output_witness :
  ∃ (first : Z * str) (first_line : str),
    head (rolls_of (H := toy_engine) 100 (py "1d20+5") NONE 0) = Some first
    ∧ result_str first = inr first_line
    ∧ _roll_many toy_ctx 100 (py "1d20+5") None None toy_world
      = (World (H := toy_engine)
           (Parse (py "1d20+5") :: replicate 100 Roll
              ++ [TryDelete;
                  Send (py "<@42>" ++ [NL]
                          ++ py "Rolling 100 iterations..." ++ [NL]
                          ++ first_line ++ [NL] ++ py "["
                          ++ py "99"
                          ++ py " results omitted for output size.]"
                          ++ [NL] ++ py "600 total.") true;
                  IncreaseStat DICE_ROLLED])
           0,
         inr tt).
Proof.
  apply (roll_many_degrades_output toy_ctx 100 (py "1d20+5") None None
           toy_world (py "1d20+5") (replicate 100 6%Z)
           (replicate 100 (toy_render (py "1d20+5")))).
  - lia.
  - reflexivity.
  - reflexivity.
  - reflexivity.
  - reflexivity.
  - vm_compute. lia.
Defined.

(** * Further properties *)

(** ** The locator on any text: what it finds and what it misses *)

Lemma prefixb_take (p s : str) :
  prefixb p s = true ↔ take (length p) s = p.
Proof.
  revert s; induction p as [|a p IH]; intros [|b s]; simpl; try done.
  rewrite andb_true_iff, IH, N.eqb_eq. split.
  - by intros [-> ->].
  - by intros [= -> ->].
Qed.

Lemma prefixb_slice (p content : str) (k : nat) :
  prefixb p (drop k content) = true ↔ slice content k (k + length p) = p.
Proof.
  rewrite prefixb_take. unfold slice.
  by replace (k + length p - k) with (length p) by lia.
Qed.

Lemma find_from_None (sub s : str) (i : nat) :
  find_from sub s i = None → ∀ k, prefixb sub (drop k s) = false.
Proof.
  revert i; induction s as [|c s IH]; intros i; simpl.
  - destruct (prefixb sub []) eqn:E; [done|]. intros _ k. by rewrite drop_nil.
  - destruct (prefixb sub (c :: s)) eqn:E; [done|].
    intros Hno [|k]; [done|]. simpl. by eapply IH.
Qed.

Lemma find_from_minimal (sub s : str) :
  ∀ i j, find_from sub s i = Some j →
         ∀ k, k < j - i → prefixb sub (drop k s) = false.
Proof.
  induction s as [|c s IH]; intros i j; simpl.
  - destruct (prefixb sub []); [|done]. intros [= <-] k. lia.
  - destruct (prefixb sub (c :: s)) eqn:E.
    + intros [= <-] k. lia.
    + intros Hj [|k] Hk; [done|]. simpl.
      apply (IH _ _ Hj). apply find_from_Some in Hj. lia.
Qed.

Lemma find_None (sub content : str) (start k : nat) :
  sub ≠ [] → find sub content start = None → start ≤ k →
  prefixb sub (drop k content) = false.
Proof.
  intros Hsub. unfold find.
  destruct (Nat.leb_spec start (length content)) as [Hle|Hgt].
  - intros Hno Hk.
    replace k with (start + (k - start)) by lia. rewrite <- drop_drop.
    by eapply find_from_None.
  - intros _ Hk. rewrite drop_ge by lia. by destruct sub.
Qed.

Lemma find_minimal (sub content : str) (start j k : nat) :
  find sub content start = Some j → start ≤ k < j →
  prefixb sub (drop k content) = false.
Proof.
  unfold find. destruct (start <=? length content); [|done].
  intros Hj Hk.
  replace k with (start + (k - start)) by lia. rewrite <- drop_drop.
  apply (find_from_minimal _ _ _ _ Hj). lia.
Qed.

Lemma find_roll_loop_delimited (content : str) :
  ∀ (fuel e : nat) (l : list range),
    find_roll_loop fuel content e = Some l → Forall (delimited content) l.
Proof.
  induction fuel as [|fuel IH]; intros e l; [done|].
  rewrite find_roll_loop_S. intros Hloop.
  destruct (find [91; 91]%N content e) as [start|] eqn:Hopen;
    [|injection Hloop as <-; constructor].
  destruct (find [93; 93]%N content start) as [e'|] eqn:Hclose;
    [|injection Hloop as <-; constructor].
  destruct (find_roll_loop fuel content e') as [l'|] eqn:Hrec; [|done].
  injection Hloop as <-. constructor; [|by eapply IH].
  unfold delimited, range_start; cbn [fst snd].
  rewrite OPEN_eq, CLOSE_eq. split_and!.
  - by apply find_Some in Hopen as (_ & _ & ?).
  - by apply find_Some in Hclose as (_ & _ & ?).
  - intros k Hk. by eapply find_minimal.
Qed.

Lemma ranges_chain_lookup (l : list range) :
  ∀ (lo hi i : nat) (r : range),
    ranges_chain lo hi l → l !! i = Some r →
    lo ≤ range_start r ∧ r.1.1.2 = range_start r + 2 ∧ r.1.1.2 ≤ r.1.2
    ∧ range_stop r = r.1.2 + 2 ∧ range_stop r ≤ hi.
Proof.
  induction l as [|[[[start es] ee] stop] l IH]; intros lo hi i r; [done|].
  intros (? & ? & ? & ? & ? & Hrest). destruct i as [|i]; simpl.
  - intros [= <-]. unfold range_start, range_stop; simpl. done.
  - intros Hi. destruct (IH _ _ _ _ Hrest Hi) as (? & ? & ? & ? & ?).
    split_and!; try done. lia.
Qed.

Lemma ranges_chain_ordered (l : list range) :
  ∀ (lo hi i j : nat) (ri rj : range),
    ranges_chain lo hi l → l !! i = Some ri → l !! j = Some rj → i < j →
    range_stop ri ≤ range_start rj.
Proof.
  induction l as [|[[[start es] ee] stop] l IH]; intros lo hi i j ri rj;
    [done|].
  intros (? & ? & ? & ? & ? & Hrest).
  destruct i as [|i], j as [|j]; simpl; try lia.
  - intros [= <-] Hj _.
    by destruct (ranges_chain_lookup _ _ _ _ _ Hrest Hj) as (? & _).
  - intros Hi Hj Hlt. eapply IH; [exact Hrest|exact Hi|exact Hj|lia].
Qed.

Lemma find_roll_expr_indices_delimited (content : str) :
  Forall (delimited content) (_find_roll_expr_indices content).
Proof.
  eapply find_roll_loop_delimited.
  apply (find_roll_expr_indices_total content (S (length content))). lia.
Qed.

(** X1: Every range the locator yields, on any text, delimits a bracketed
    expression: the opening delimiter is at its start, the closing one at
    its end, no closing delimiter starts before that one, the range lies
    inside the text, and the ranges after it start where it stops or
    later. *)
Theorem locator_ranges_delimit (content : str) (i : nat)
    (start e_start e_end stop : nat) :
  _find_roll_expr_indices content !! i = Some (start, e_start, e_end, stop) →
  e_start = start + 2 ∧ e_start ≤ e_end ∧ stop = e_end + 2
  ∧ stop ≤ length content
  ∧ slice content start e_start = OPEN
  ∧ slice content e_end stop = CLOSE
  ∧ (∀ k, start ≤ k < e_end → slice content k (k + 2) ≠ CLOSE)
  ∧ (∀ (j : nat) (r : range),
       _find_roll_expr_indices content !! j = Some r → i < j →
       stop ≤ range_start r).
Proof.
  intros Hi.
  pose proof (find_roll_expr_indices_chain content) as Hchain.
  pose proof (find_roll_expr_indices_delimited content) as Hdel.
  rewrite Forall_lookup in Hdel. specialize (Hdel _ _ Hi).
  destruct Hdel as (Hopen & Hclose & Hfirst).
  destruct (ranges_chain_lookup _ _ _ _ _ Hchain Hi)
    as (_ & Hes & Hee & Hstop & Hlen).
  unfold range_start, range_stop in *; cbn [fst snd] in *.
  subst e_start stop.
  split_and!; try done.
  - by apply (prefixb_slice OPEN).
  - by apply (prefixb_slice CLOSE).
  - intros k Hk Heq. apply (prefixb_slice CLOSE) in Heq.
    by rewrite Hfirst in Heq.
  - intros j r Hj Hlt.
    apply (ranges_chain_ordered _ _ _ _ _ _ _ Hchain Hi Hj Hlt).
Qed.

Lemma locator_ranges_delimit_witness :
  8 = 6 + 2 ∧ 8 ≤ 14 ∧ 16 = 14 + 2
  ∧ 16 ≤ length (py "I hit [[1d20+5]] for [[1d6]] damage [[oops")
  ∧ slice (py "I hit [[1d20+5]] for [[1d6]] damage [[oops") 6 8 = OPEN
  ∧ slice (py "I hit [[1d20+5]] for [[1d6]] damage [[oops") 14 16 = CLOSE
  ∧ (∀ k, 6 ≤ k < 14 →
       slice (py "I hit [[1d20+5]] for [[1d6]] damage [[oops") k (k + 2)
       ≠ CLOSE)
  ∧ (∀ (j : nat) (r : range),
       _find_roll_expr_indices
         (py "I hit [[1d20+5]] for [[1d6]] damage [[oops") !! j = Some r →
       0 < j → 16 ≤ range_start r).
Proof.
  apply (locator_ranges_delimit
           (py "I hit [[1d20+5]] for [[1d6]] damage [[oops") 0 6 8 14 16).
  reflexivity.
Defined.

(** X2: The locator yields nothing exactly when the text holds no opening
    delimiter with a closing delimiter at or after it; the empty text and
    a text with a dangling opener are such texts. *)
Theorem locator_empty_iff (content : str) :
  _find_roll_expr_indices content = []
  ↔ ∀ a b, a ≤ b →
           ¬ (slice content a (a + 2) = OPEN
              ∧ slice content b (b + 2) = CLOSE).
Proof.
  pose proof (find_roll_expr_indices_total content (S (length content))
                ltac:(lia)) as Htotal.
  rewrite find_roll_loop_S in Htotal. rewrite OPEN_eq, CLOSE_eq.
  destruct (find [91; 91]%N content 0) as [start|] eqn:Hopen.
  - destruct (find [93; 93]%N content start) as [e'|] eqn:Hclose.
    + destruct (find_roll_loop _ content e') as [l'|]; [|done].
      injection Htotal as <-. split; [done|]. intros Hnone. exfalso.
      apply find_Some in Hopen as (_ & _ & Hopen).
      apply find_Some in Hclose as (Hle & _ & Hclose).
      apply (Hnone start e' Hle). split.
      * by apply (prefixb_slice [91; 91]%N).
      * by apply (prefixb_slice [93; 93]%N).
    + injection Htotal as <-. split; [|done].
      intros _ a b Hab
        [Ha%(prefixb_slice [91; 91]%N) Hb%(prefixb_slice [93; 93]%N)].
      destruct (decide (a < start)) as [Hlt|Hge].
      * rewrite (find_minimal _ _ _ _ a Hopen) in Ha; [done|lia].
      * rewrite (find_None _ content start b) in Hb; [done|done|done|lia].
  - injection Htotal as <-. split; [|done].
    intros _ a b Hab [Ha%(prefixb_slice [91; 91]%N) _].
    rewrite (find_None _ content 0 a) in Ha; [done|done|done|lia].
Qed.

(** ** The resolver: outputs, reach of the windows, the clamp by index *)

Lemma raw_window_fields (content : str) (nb na mcl : nat)
    (start e_start e_end stop : nat) :
  let w := raw_window content nb na mcl (start, e_start, e_end, stop) in
  w_start w = start ∧ expr_start w = e_start ∧ expr_end w = e_end
  ∧ w_end w = stop
  ∧ start - mcl ≤ before_idx w
  ∧ after_idx w ≤ min (length content) (stop + mcl).
Proof.
  unfold raw_window. cbv zeta.
  destruct (nb <? _), (na <? _); simpl; split_and!; try done; lia.
Qed.

(** X3: Every located expression gives one output, in the order of the text,
    and the expression handed to the roller is the text between the
    delimiters with the whitespace at both ends stripped. *)
Theorem one_output_per_expression (content : str)
    (context_before context_after max_context_len : nat)
    (i : nat) (start e_start e_end stop : nat) :
  _find_roll_expr_indices content !! i = Some (start, e_start, e_end, stop) →
  length (_find_inline_exprs content context_before context_after
            max_context_len)
  = length (_find_roll_expr_indices content)
  ∧ ∃ cb ca : str,
      _find_inline_exprs content context_before context_after
        max_context_len !! i
      = Some (strip (slice content e_start e_end), cb, ca).
Proof.
  intros Hi. unfold _find_inline_exprs, windows.
  pose proof (clamp_shrinks (raw_windows content context_before context_after
                               max_context_len)) as Hshrinks.
  split.
  - rewrite length_fmap, <- (Forall2_length _ _ _ Hshrinks).
    unfold raw_windows. by rewrite length_fmap.
  - assert (raw_windows content context_before context_after max_context_len
              !! i
            = Some (raw_window content context_before context_after
                      max_context_len (start, e_start, e_end, stop))) as Hraw
      by (unfold raw_windows; rewrite list_lookup_fmap;
          exact (f_equal (fmap (raw_window content context_before
                                  context_after max_context_len)) Hi)).
    destruct (Forall2_lookup_l _ _ _ _ _ Hshrinks Hraw)
      as (w' & Hw' & _ & Hes & Hee & _).
    destruct (raw_window_fields content context_before context_after
                max_context_len start e_start e_end stop)
      as (_ & Hes0 & Hee0 & _).
    rewrite list_lookup_fmap, Hw'. simpl. unfold materialize.
    rewrite Hes, Hee, Hes0, Hee0. eauto.
Qed.

Lemma one_output_per_expression_witness :
  length (_find_inline_exprs (py "roll [[ 1d20 + 5 ]] now") 5 2 128)
  = length (_find_roll_expr_indices (py "roll [[ 1d20 + 5 ]] now"))
  ∧ ∃ cb ca : str,
      _find_inline_exprs (py "roll [[ 1d20 + 5 ]] now") 5 2 128 !! 0
      = Some (strip (slice (py "roll [[ 1d20 + 5 ]] now") 7 17), cb, ca).
Proof.
  apply (one_output_per_expression (py "roll [[ 1d20 + 5 ]] now") 5 2 128
           0 5 7 17 19).
  reflexivity.
Defined.

Lemma lstrip_length (s : str) : length (lstrip s) ≤ length s.
Proof.
  induction s as [|c s IH]; simpl; [done|].
  destruct (isspace c); simpl; lia.
Qed.

Lemma rstrip_length (s : str) : length (rstrip s) ≤ length s.
Proof.
  unfold rstrip. rewrite length_reverse.
  etrans; [apply lstrip_length|]. by rewrite length_reverse.
Qed.

Lemma slice_length_le (content : str) (a b : nat) :
  length (slice content a b) ≤ b - a.
Proof. unfold slice. rewrite length_take. lia. Qed.

(** X4: No window reaches further than [max_context_len] characters from its
    expression on either side, nor past the end of the text; so neither
    context text is longer than [max_context_len]. *)
Theorem window_reach_bounded (content : str)
    (context_before context_after max_context_len : nat)
    (i : nat) (w : window) :
  windows content context_before context_after max_context_len !! i
    = Some w →
  w_start w - before_idx w ≤ max_context_len
  ∧ after_idx w - w_end w ≤ max_context_len
  ∧ after_idx w ≤ length content
  ∧ length (before_text content w) ≤ max_context_len
  ∧ length (after_text content w) ≤ max_context_len.
Proof.
  intros Hw. unfold windows in Hw.
  destruct (Forall2_lookup_r _ _ _ _ _ (clamp_shrinks _) Hw)
    as (w0 & Hw0 & Hs & _ & _ & He & Hb & Ha).
  unfold raw_windows in Hw0. rewrite list_lookup_fmap in Hw0.
  destruct (_find_roll_expr_indices content !! i) as [r|]; [|done].
  cbn [fmap option_fmap option_map] in Hw0. injection Hw0 as <-.
  destruct r as [[[start e_start] e_end] stop].
  destruct (raw_window_fields content context_before context_after
              max_context_len start e_start e_end stop)
    as (Hs0 & _ & _ & He0 & Hb0 & Ha0).
  assert (w_start w - before_idx w ≤ max_context_len) by lia.
  assert (after_idx w - w_end w ≤ max_context_len) by lia.
  split_and!; [done|done|lia| |].
  - unfold before_text. etrans; [apply lstrip_length|].
    etrans; [apply slice_length_le|done].
  - unfold after_text. etrans; [apply rstrip_length|].
    etrans; [apply slice_length_le|done].
Qed.

Lemma window_reach_bounded_witness :
  w_start (Window 5 12 14 15 17 17) - before_idx (Window 5 12 14 15 17 17)
    ≤ 128
  ∧ after_idx (Window 5 12 14 15 17 17) - w_end (Window 5 12 14 15 17 17)
    ≤ 128
  ∧ after_idx (Window 5 12 14 15 17 17) ≤ length (py "[[1]] a b c [[2]]")
  ∧ length (before_text (py "[[1]] a b c [[2]]") (Window 5 12 14 15 17 17))
    ≤ 128
  ∧ length (after_text (py "[[1]] a b c [[2]]") (Window 5 12 14 15 17 17))
    ≤ 128.
Proof.
  apply (window_reach_bounded (py "[[1]] a b c [[2]]") 5 2 128 1).
  reflexivity.
Defined.

Lemma clamp_starts_lookup_any (idxs : list window) :
  ∀ (prev : option nat) (i : nat),
    clamp_starts prev idxs !! i
    = (λ w, match match i with
                  | 0 => prev
                  | S k => w_end <$> idxs !! k
                  end with
            | Some e => set_before_idx (max (before_idx w) e) w
            | None => w
            end) <$> idxs !! i.
Proof.
  induction idxs as [|x l IH]; intros prev i; [done|].
  destruct i as [|i]; simpl; [done|].
  rewrite IH. destruct i as [|i]; done.
Qed.

Lemma clamp_ends_lookup (idxs : list window) :
  ∀ i : nat,
    clamp_ends idxs !! i
    = (λ w, match idxs !! S i with
            | Some next =>
                set_after_idx (min (after_idx w) (before_idx next)) w
            | None => w
            end) <$> idxs !! i.
Proof.
  induction idxs as [|x l IH]; intros i; [done|].
  destruct i as [|i]; [by destruct l|].
  rewrite clamp_ends_step. simpl. by rewrite IH.
Qed.

(** X5: The two passes together, window by window: the before-window of a
    candidate starts at its raw start or at the end of the previous
    expression, whichever is later; its after-window ends at its raw end
    or at the start so obtained for the next candidate, whichever is
    earlier.  A next candidate whose raw before-window reaches back to
    this expression thus leaves it no after-context. *)
Theorem clamp_by_index (idxs : list window) (i : nat) (w : window) :
  idxs !! i = Some w →
  clamp idxs !! i
  = Some (Window
            match i with
            | 0 => before_idx w
            | S k =>
                match idxs !! k with
                | Some prev => max (before_idx w) (w_end prev)
                | None => before_idx w
                end
            end
            (w_start w) (expr_start w) (expr_end w) (w_end w)
            match idxs !! S i with
            | Some next =>
                min (after_idx w) (max (before_idx next) (w_end w))
            | None => after_idx w
            end).
Proof.
  intros Hw. rewrite clamp_closed, clamp_ends_lookup.
  rewrite !clamp_starts_lookup_any, Hw. simpl.
  destruct (idxs !! S i) as [next|]; simpl;
    destruct i as [|k]; simpl; try (by destruct w);
    destruct (idxs !! k); simpl; by destruct w.
Qed.

Lemma clamp_by_index_witness :
  clamp [Window 0 0 2 3 5 10; Window 0 12 14 15 17 17] !! 0
  = Some (Window 0 0 2 3 5 (min 10 (max 0 5))).
Proof.
  apply (clamp_by_index [Window 0 0 2 3 5 10; Window 0 12 14 15 17 17] 0
           (Window 0 0 2 3 5 10)).
  reflexivity.
Defined.

(** ** The advantage stripper: which mode, and what is left *)

Lemma space_run_lookup (t : str) :
  ∀ n, n < space_run t → ∃ c, t !! n = Some c ∧ isspace c = true.
Proof.
  induction t as [|c t IH]; intros n; simpl; [lia|].
  destruct (isspace c) eqn:E; [|lia].
  destruct n as [|n]; simpl; [eauto|]. intros Hn. apply IH. lia.
Qed.

Lemma space_run_length (t : str) : space_run t ≤ length t.
Proof.
  induction t as [|c t IH]; simpl; [done|]. destruct (isspace c); lia.
Qed.

Lemma space_run_word (u : str) : starts_word u = true → space_run u = 0.
Proof. destruct u as [|c u]; simpl; [done|]. by destruct (isspace c). Qed.

Lemma search_from_iff (r : regex) (s : str) :
  ∀ i, is_not_None (search_from r i s) = true
       ↔ ∃ j, j ≤ length s ∧ is_not_None (match_at r (i + j) (drop j s)) = true.
Proof.
  induction s as [|c s IH]; intros i; simpl.
  - destruct (match_at r i []) eqn:E; simpl.
    + split; [|done]. intros _. exists 0. by rewrite Nat.add_0_r, drop_0, E.
    + split; [done|]. intros (j & Hj & Hm).
      replace j with 0 in Hm by lia. by rewrite Nat.add_0_r, drop_0, E in Hm.
  - destruct (match_at r i (c :: s)) eqn:E; simpl.
    + split; [|done]. intros _. exists 0.
      split; [lia|]. by rewrite Nat.add_0_r, drop_0, E.
    + rewrite IH. split.
      * intros (j & Hj & Hm). exists (S j). split; [lia|].
        by replace (i + S j) with (S i + j) by lia.
      * intros ([|j] & Hj & Hm).
        -- by rewrite Nat.add_0_r, drop_0, E in Hm.
        -- exists j. split; [lia|].
           by replace (S i + j) with (i + S j) by lia.
Qed.

Section WordSearch.
Variable k : nat → str → option nat.
Variable tokb : str → bool.
Hypothesis k_tokb : ∀ j u, is_not_None (k j u) = tokb u.
Hypothesis tokb_word : ∀ u, tokb u = true → starts_word u = true.

Lemma k_space (j : nat) (u : str) : starts_word u = false → k j u = None.
Proof.
  intros Hu. specialize (k_tokb j u). specialize (tokb_word u).
  destruct (k j u); [|done]. simpl in k_tokb.
  rewrite <- k_tokb in tokb_word. by rewrite tokb_word in Hu.
Qed.

(** [\s+] before a word: only the whole run of whitespace can be
    followed by the word. *)
Lemma spaces_plus_word (t : str) :
  ∀ i, spaces_plus i t k
       = if starts_word t then None
         else match t with
              | [] => None
              | _ => k (i + space_run t) (drop (space_run t) t)
              end.
Proof.
  induction t as [|c t IH]; intros i; simpl; [done|].
  destruct (isspace c) eqn:E; simpl; [|done].
  rewrite IH. destruct t as [|d t]; simpl.
  - by replace (i + 1) with (S i) by lia.
  - destruct (isspace d) eqn:Ed; simpl.
    + replace (i + S (S (space_run t))) with (S (i + S (space_run t)))
        by lia.
      destruct (k _ _) eqn:Ek; [done|].
      apply k_space. simpl. by rewrite Ed.
    + by replace (i + 1) with (S i) by lia.
Qed.

Lemma word_start_match (i : nat) (t : str) :
  is_not_None (rmatch word_start i t k) = true
  ↔ (i = 0 ∧ tokb t = true)
    ∨ (t ≠ [] ∧ starts_word t = false
       ∧ tokb (drop (space_run t) t) = true).
Proof.
  unfold word_start. cbn [rmatch]. rewrite spaces_plus_word.
  destruct (Nat.eqb_spec i 0) as [->|Hi].
  - destruct (k 0 t) eqn:E0.
    + simpl. split; [|done]. intros _. left. by rewrite <- (k_tokb 0), E0.
    + rewrite <- (k_tokb 0 t), E0.
      destruct (starts_word t) eqn:Et; simpl.
      * split; [done|]. by intros [[_ ?]|(_ & ? & _)].
      * destruct t as [|c t]; [split; [done|by intros [[_ ?]|(? & _)]]|].
        rewrite k_tokb. split; [by right|by intros [[_ ?]|(_ & _ & ?)]].
  - destruct (starts_word t) eqn:Et; simpl.
    + split; [done|]. intros [[? _]|(_ & ? & _)]; done.
    + destruct t as [|c t]; [split; [done|by intros [[? _]|(? & _)]]|].
      rewrite k_tokb. split; [by right|by intros [[? _]|(_ & _ & ?)]].
Qed.

(** A pattern that is [(^|\s+)] followed by a word pattern is found in
    [s] exactly when [s] splits into a part that is empty or ends in
    whitespace and a part that starts with the word. *)
Lemma search_word (r : regex) (s : str) :
  (∀ i t, match_at r i t = rmatch word_start i t k) →
  is_not_None (re_search r s) = true
  ↔ ∃ pre u, s = pre ++ u ∧ ends_word false pre = false ∧ tokb u = true.
Proof.
  intros Hr. unfold re_search. rewrite search_from_iff. split.
  - intros (j & Hj & Hm). rewrite Hr in Hm.
    apply word_start_match in Hm as [[Hj0 Htok]|(Hne & Hsp & Htok)].
    + simpl in Hj0. subst j. exists [], s. by rewrite drop_0 in Htok.
    + set (t := drop j s) in *. set (n := space_run t) in *.
      assert (0 < n) as Hn.
      { destruct t as [|c t']; [done|]. unfold n. simpl in *.
        destruct (isspace c); [lia|done]. }
      assert (n ≤ length t) as Hlen by apply space_run_length.
      unfold t in Hlen. rewrite length_drop in Hlen.
      exists (take (j + n) s), (drop n t). split_and!; [| |done].
      * unfold t. by rewrite drop_drop, take_drop.
      * unfold ends_word. rewrite last_lookup, length_take.
        replace (Init.Nat.pred ((j + n) `min` length s)) with (j + (n - 1))
          by lia.
        rewrite lookup_take_lt by lia.
        destruct (space_run_lookup t (n - 1)) as (c & Hc & Hsp'); [lia|].
        unfold t in Hc. rewrite lookup_drop in Hc. by rewrite Hc, Hsp'.
  - intros (pre & u & -> & Hpre & Htok). simpl.
    destruct pre as [|c pre _] using rev_ind.
    + exists 0. split; [lia|]. rewrite Hr. apply word_start_match. by left.
    + exists (length pre). split; [rewrite !length_app; lia|].
      rewrite Hr. apply word_start_match. right.
      rewrite <- (assoc_L (++)), drop_app_length.
      unfold ends_word in Hpre. rewrite last_snoc in Hpre.
      apply negb_false_iff in Hpre.
      pose proof (space_run_word u (tokb_word u Htok)) as Hrun.
      simpl. rewrite Hpre, Hrun. simpl. by rewrite drop_0.
Qed.

End WordSearch.

Lemma prefixb_split (p u : str) :
  prefixb p u = true ↔ ∃ post, u = p ++ post.
Proof.
  rewrite prefixb_take. split.
  - intros Hp. exists (drop (length p) u).
    by rewrite <- Hp at 1; rewrite take_drop.
  - intros [post ->]. by rewrite take_app_length.
Qed.

Lemma token_at_split (tok u : str) :
  token_at tok u = true
  ↔ ∃ post, u = tok ++ post ∧ starts_word post = false.
Proof.
  unfold token_at. rewrite andb_true_iff, negb_true_iff, prefixb_split.
  split.
  - intros [[post ->] Hpost]. rewrite drop_app_length in Hpost. eauto.
  - intros (post & -> & Hpost). rewrite drop_app_length. eauto.
Qed.

Lemma token_here_or (u : str) :
  token_here u = token_at (py "adv") u || token_at (py "dis") u.
Proof.
  unfold token_here, token_at.
  change (length (py "adv")) with 3. change (length (py "dis")) with 3.
  by destruct (prefixb (py "adv") u), (prefixb (py "dis") u),
       (starts_word (drop 3 u)).
Qed.

Lemma token_at_word (tok u : str) :
  starts_word tok = true → token_at tok u = true → starts_word u = true.
Proof.
  intros Htok (post & -> & _)%token_at_split. by destruct tok.
Qed.

Lemma whole_word_split (tok s : str) :
  whole_word tok s
  ↔ ∃ pre u, s = pre ++ u ∧ ends_word false pre = false
             ∧ token_at tok u = true.
Proof.
  unfold whole_word. split.
  - intros (pre & post & -> & Hpre & Hpost). exists pre, (tok ++ post).
    split_and!; [done|done|]. apply token_at_split. eauto.
  - intros (pre & u & -> & Hpre & (post & -> & Hpost)%token_at_split).
    eauto.
Qed.

Lemma search_adv (s : str) :
  is_not_None (re_search RE_ADV s) = true ↔ whole_word (py "adv") s.
Proof.
  rewrite whole_word_split.
  apply (search_word
           (λ j u, rmatch LIT_ADV j u
                     (λ j' u', rmatch word_stop j' u' (λ e _, Some e)))).
  - intros j u. unfold LIT_ADV. rewrite rmatch_lit3, word_stop_accept.
    unfold token_at. change (length (py "adv")) with 3.
    change (py "adv") with [ch "a"; ch "d"; ch "v"].
    by destruct (prefixb _ u), (starts_word (drop 3 u)).
  - intros u. by apply token_at_word.
  - done.
Qed.

Lemma search_adv_or_dis (s : str) :
  is_not_None (re_search RE_ADV_OR_DIS s) = true
  ↔ ∃ pre u, s = pre ++ u ∧ ends_word false pre = false
             ∧ token_here u = true.
Proof.
  apply (search_word (match_at RE_STRIP)).
  - intros j u. rewrite match_at_strip. by destruct (token_here u).
  - intros u. rewrite token_here_or.
    intros [H|H]%orb_prop; eapply token_at_word; try exact H; done.
  - done.
Qed.

Lemma search_adv_or_dis_words (s : str) :
  is_not_None (re_search RE_ADV_OR_DIS s) = true
  ↔ whole_word (py "adv") s ∨ whole_word (py "dis") s.
Proof.
  rewrite search_adv_or_dis, !whole_word_split. split.
  - intros (pre & u & Hs & Hpre & Htok).
    rewrite token_here_or in Htok.
    apply orb_prop in Htok as [Htok|Htok]; [left|right]; eauto.
  - intros [(pre & u & Hs & Hpre & Htok)|(pre & u & Hs & Hpre & Htok)];
      exists pre, u; rewrite token_here_or, Htok; split_and!; try done.
    by rewrite orb_true_r.
Qed.

(** X6: The mode the stripper returns, read off the words of the string:
    Advantage exactly when [adv] occurs as a whole word, whatever else the
    string holds; Disadvantage exactly when [dis] does and [adv] does not;
    none exactly when neither does. *)
Theorem mode_by_whole_words (rollstr : str) :
  ((_string_search_adv rollstr).2 = ADV ↔ whole_word (py "adv") rollstr)
  ∧ ((_string_search_adv rollstr).2 = DIS
     ↔ ¬ whole_word (py "adv") rollstr ∧ whole_word (py "dis") rollstr)
  ∧ ((_string_search_adv rollstr).2 = NONE
     ↔ ¬ whole_word (py "adv") rollstr ∧ ¬ whole_word (py "dis") rollstr).
Proof.
  pose proof (search_adv rollstr) as Hadv.
  pose proof (search_adv_or_dis_words rollstr) as Hany.
  unfold _string_search_adv.
  destruct (is_not_None (re_search RE_ADV_OR_DIS rollstr));
    destruct (is_not_None (re_search RE_ADV rollstr)); simpl.
  all: repeat match goal with
         | H : true = true ↔ ?P |- _ =>
             assert P by (by apply H); clear H
         | H : false = true ↔ ?P |- _ =>
             assert (¬ P) by (by intros ?%H); clear H
         end.
  all: split_and!; split; intros; try discriminate; try reflexivity;
    tauto.
Qed.

Lemma stripped_sublist (s out : str) : stripped s out → out `sublist_of` s.
Proof.
  induction 1 as [|s out _ _ IH|c s out _ _ IH].
  - done.
  - etrans; [exact IH|apply sublist_drop].
  - by apply sublist_skip.
Qed.

Lemma stripped_shorter (s out : str) :
  stripped s out →
  (∃ pre u, s = pre ++ u ∧ token_here u = true) →
  length out + 3 ≤ length s.
Proof.
  induction 1 as [|s out Htok Hrest _|c s out Hno _ IH].
  - intros (pre & u & Hs & Hu). by destruct pre, u.
  - intros _. apply stripped_sublist, sublist_length in Hrest.
    rewrite length_drop in Hrest.
    assert (3 ≤ length s); [|lia].
    unfold token_here in Htok. apply andb_prop in Htok as [Hp _].
    apply orb_prop in Hp as [Hp|Hp]; by apply prefixb_length in Hp.
  - intros (pre & u & Hs & Hu). destruct pre as [|d pre].
    + simpl in Hs. subst u. by rewrite Hno in Hu.
    + injection Hs as -> ->. simpl.
      assert (length out + 3 ≤ length (pre ++ u)); [|lia]. apply IH. eauto.
Qed.

(** X7: The cleaned string is the input with characters deleted and nothing
    else: it is a subsequence of the input.  With no mode it is the input
    itself; with a mode it is at least three characters shorter, so the
    word that set the mode never reaches the roll engine untouched. *)
Theorem stripper_only_deletes (rollstr : str) :
  (_string_search_adv rollstr).1 `sublist_of` rollstr
  ∧ ((_string_search_adv rollstr).2 = NONE →
     (_string_search_adv rollstr).1 = rollstr)
  ∧ ((_string_search_adv rollstr).2 ≠ NONE →
     length (_string_search_adv rollstr).1 + 3 ≤ length rollstr).
Proof.
  pose proof (search_adv_or_dis rollstr) as Hany.
  unfold _string_search_adv.
  destruct (is_not_None (re_search RE_ADV_OR_DIS rollstr)); simpl.
  - pose proof (sub_from_stripped (length rollstr) rollstr 0 ltac:(done))
      as Hstripped.
    split_and!.
    + by apply stripped_sublist.
    + by destruct (is_not_None (re_search RE_ADV rollstr)).
    + intros _. apply stripped_shorter; [done|].
      destruct (proj1 Hany eq_refl) as (pre & u & Hs & _ & Hu). eauto.
  - split_and!; done.
Qed.

Lemma stripper_only_deletes_witness :
  (_string_search_adv (py "1d20 dis extra")).1 `sublist_of` py "1d20 dis extra"
  ∧ ((_string_search_adv (py "1d20+3")).2 = NONE →
     (_string_search_adv (py "1d20+3")).1 = py "1d20+3")
  ∧ length (_string_search_adv (py "1d20 dis extra")).1 + 3
    ≤ length (py "1d20 dis extra").
Proof.
  split_and!.
  - apply (stripper_only_deletes (py "1d20 dis extra")).
  - apply (stripper_only_deletes (py "1d20+3")).
  - apply (stripper_only_deletes (py "1d20 dis extra")).
    vm_compute. discriminate.
Defined.

(** ** The commands: what is sent, and what is not *)

Section MoreCommandProperties.
Context `{RollEngine}.

(** X8: A roll command on anything but ["0/0"] calls the engine once, on the
    string without its advantage words.  When the engine raises, or when
    the result raises as its text or its total is read, nothing else
    happens: no message is deleted or sent, no statistic counted.
    Otherwise the message is deleted, one reply is sent and the statistic
    is counted once; the game log gets the result only if its cog is
    loaded.  The reply is the mention, the die and the text of the
    result, or the first hundred characters of the text and the total
    when that is longer than 1999 characters. *)
Theorem rollCmd_outcomes (ctx : context) (rollStr : str) (w : world) :
  rollStr ≠ py "0/0" →
  let replied (res : roll_result) (st : roll_context) (body : str) :=
    rollCmd ctx rollStr w
    = (World
         (journal w
            ++ [Roll; TryDelete;
                Send (mention ctx ++ GAME_DIE ++ [NL] ++ body) true;
                IncreaseStat DICE_ROLLED]
            ++ (if gamelog ctx then [GameLogSendRoll res] else []))
         st,
       inr tt) in
  let raised (st : roll_context) (e : exn) :=
    rollCmd ctx rollStr w = (World (journal w ++ [Roll]) st, inl e) in
  match d20_roll (d20_state w) (_string_search_adv rollStr).1
          (_string_search_adv rollStr).2 with
  | (Rolled res, st) =>
      match result_str res with
      | inl e => raised st e
      | inr s =>
          if 1999 <? length (mention ctx ++ GAME_DIE ++ [NL] ++ s) then
            match total res with
            | inl e => raised st e
            | inr t =>
                replied res st
                  (take 100 s ++ py "..." ++ [NL] ++ py "**Total**: "
                     ++ num_str t)
            end
          else replied res st s
      end
  | (RaisedRollSyntaxError msg, st) => raised st (RollSyntaxError msg)
  | (RaisedRollError msg, st) => raised st (RollError msg)
  | (RaisedOther name, st) => raised st (OtherError name)
  end.
Proof.
  intros Hne. cbv zeta. unfold rollCmd.
  rewrite bool_decide_eq_false_2 by done.
  destruct (_string_search_adv rollStr) as [s adv]. cbn [fst snd].
  unfold call_d20_roll, d20_step, roll_reply, mbind, cmd_bind, emit, read.
  cbn [journal d20_state].
  destruct (d20_roll (d20_state w) s adv) as [[res|msg|msg|name] st];
    cbn [lift_outcome mret cmd_ret raise]; [|done..].
  destruct (result_str res) as [e|text]; [done|].
  destruct (1999 <? _); [destruct (total res) as [e|t]; [done|]|];
    destruct (gamelog ctx); cbn [mret cmd_ret journal d20_state];
    by rewrite <- !(assoc_L (++)).
Qed.

(** Whatever it is given but ["0/0"], the roll command calls the engine
    first. *)
Lemma rollCmd_rolls_first (ctx : context) (rollStr : str) (w : world) :
  rollStr ≠ py "0/0" →
  ∃ rest : list event,
    journal (rollCmd ctx rollStr w).1 = journal w ++ Roll :: rest.
Proof.
  intros Hne. unfold rollCmd. rewrite bool_decide_eq_false_2 by done.
  destruct (_string_search_adv rollStr) as [s adv].
  unfold call_d20_roll, d20_step, roll_reply, mbind, cmd_bind, emit, read.
  cbn [journal d20_state].
  destruct (d20_roll (d20_state w) s adv) as [[res|msg|msg|name] st];
    cbn [lift_outcome mret cmd_ret raise];
    [|by exists []; rewrite <- ?(assoc_L (++))..].
  destruct (result_str res) as [e|text]; [by exists []|].
  destruct (1999 <? _); [destruct (total res) as [e|t]; [by exists []|]|];
    destruct (gamelog ctx); cbn [mret cmd_ret journal d20_state fst];
    rewrite <- ?(assoc_L (++)); eauto.
Qed.

(** X9: The quick roll never meets the easter egg: whatever the modifier, it
    calls the roll engine first. *)
Theorem quick_roll_always_rolls (ctx : context) (mod_ : str) (w : world) :
  ∃ rest : list event,
    journal (quick_roll ctx mod_ w).1 = journal w ++ Roll :: rest.
Proof.
  unfold quick_roll. by apply rollCmd_rolls_first.
Qed.

(** The loop, stopped by an exception. *)
Lemma roll_iterations_stop (a : ast) (adv : AdvType) (dc : option Z)
    (n : nat) :
  ∀ (st : roll_context) (successes : nat) (results : list roll_result)
    (w : world) (finished : list roll_result) (e : exn),
    roll_run n a adv dc st = (finished, Some e) →
    roll_iterations n a adv dc st successes results w
    = (World (journal w ++ replicate (S (length finished)) Roll)
         (d20_state w),
       inl e).
Proof.
  induction n as [|n IH]; intros st successes results w finished e Hrun;
    [done|].
  cbn [roll_iterations roll_run] in *.
  unfold mbind, cmd_bind, emit, read, meets_dc.
  destruct (roll_ast st a adv) as [[res|msg|msg|name] st'];
    cbn [lift_outcome mret cmd_ret raise];
    [|by injection Hrun as <- <-..].
  assert (∀ k, roll_run n a adv dc st' = (tail finished, Some e) →
               finished ≠ [] →
               roll_iterations n a adv dc st' k (results ++ [res])
                 (World (journal w ++ [Roll]) (d20_state w))
               = (World (journal w ++ replicate (S (length finished)) Roll)
                    (d20_state w),
                  inl e)) as Hk.
  { intros k Hrest Hne. rewrite (IH _ _ _ _ _ _ Hrest).
    cbn [journal d20_state]. rewrite <- (assoc_L (++)).
    destruct finished; [done|]. done. }
  destruct (roll_run n a adv dc st') as [rest stop] eqn:Erest.
  destruct dc as [d|].
  - destruct (total res) as [e'|t]; [by injection Hrun as <- <-|].
    injection Hrun as <- ->.
    by destruct (num_geb t d); apply Hk.
  - assert ((res :: rest, stop) = (finished, Some e)) as [= <- ->]
      by (by destruct (total res)).
    by apply Hk.
Qed.

(** The loop, run to its end. *)
Lemma roll_iterations_run (a : ast) (adv : AdvType) (dc : option Z)
    (n : nat) :
  ∀ (st : roll_context) (successes : nat) (results : list roll_result)
    (w : world) (finished : list roll_result),
    roll_run n a adv dc st = (finished, None) →
    rolls_of n a adv st = finished
    ∧ length finished = n
    ∧ ∃ successes' : nat,
        roll_iterations n a adv dc st successes results w
        = (World (journal w ++ replicate n Roll) (d20_state w),
           inr (successes', results ++ finished)).
Proof.
  induction n as [|n IH]; intros st successes results w finished Hrun.
  - injection Hrun as <-. split_and!; [done..|].
    exists successes. simpl. rewrite !app_nil_r. by destruct w.
  - cbn [roll_iterations roll_run rolls_of] in *.
    unfold mbind, cmd_bind, emit, read, meets_dc.
    destruct (roll_ast st a adv) as [[res|msg|msg|name] st'];
      cbn [lift_outcome mret cmd_ret raise]; [|done..].
    destruct (roll_run n a adv dc st') as [rest stop] eqn:Erest.
    assert ((res :: rest, stop) = (finished, None)) as Hfin
      by (destruct dc; destruct (total res); done).
    injection Hfin as <- ->.
    destruct (IH st' 0 [] w rest Erest) as (Hrolls & Hlen & _).
    split_and!; [by rewrite Hrolls|by simpl; rewrite Hlen|].
    assert (∀ k, ∃ successes' : nat,
                   roll_iterations n a adv dc st' k (results ++ [res])
                     (World (journal w ++ [Roll]) (d20_state w))
                   = (World (journal w ++ replicate (S n) Roll)
                        (d20_state w),
                      inr (successes', results ++ res :: rest))) as Hk.
    { intros k.
      destruct (IH st' k (results ++ [res])
                  (World (journal w ++ [Roll]) (d20_state w)) rest Erest)
        as (_ & _ & s' & Hit).
      exists s'. rewrite Hit. cbn [journal d20_state].
      by rewrite <- !(assoc_L (++)). }
    destruct dc as [d|];
      [destruct (total res) as [e'|t]; [done|destruct (num_geb t d)]|];
      apply Hk.
Qed.

Lemma sum_totals_fail (results : list roll_result) (e : exn) :
  collect total results = inl e →
  ∀ acc, sum_totals acc results = inl e.
Proof.
  induction results as [|res rest IH]; [done|]. simpl.
  destruct (total res) as [e'|t]; [by intros [= ->]|].
  destruct (collect total rest) as [e'|ts]; [|done].
  intros [= ->] acc. by apply IH.
Qed.

(** X10: A batch in range, whatever comes of it.  When the expression does
    not parse, no roll is made and the syntax error leaves the command.
    When a roll raises, or, with a DC, the total of its result does, the
    rolls stop there and that exception leaves the command.  When the
    rolls are made and a total, read for the sum, or a text, read for
    the reply, raises, all the rolls were made and that exception leaves
    the command.  In all these cases no message is deleted, no reply
    sent and no statistic counted.  Otherwise the reply is sent. *)
Theorem roll_many_no_partial_output (ctx : context) (iterations : Z)
    (roll_str : str) (dc : option Z) (adv : option AdvType) (w : world) :
  (1 ≤ iterations ≤ 100)%Z →
  let n := Z.to_nat iterations in
  let stopped (rolls : nat) (e : exn) :=
    _roll_many ctx iterations roll_str dc adv w
    = (World (journal w ++ Parse roll_str :: replicate rolls Roll)
         (d20_state w),
       inl e) in
  match parse roll_str with
  | inl msg => stopped 0 (RollSyntaxError msg)
  | inr a =>
      match roll_run n a (default NONE adv) dc new_context with
      | (finished, Some e) => stopped (S (length finished)) e
      | (results, None) =>
          match collect total results with
          | inl e => stopped n e
          | inr totals =>
              match collect result_str results with
              | inl e => stopped n e
              | inr lines =>
                  _roll_many ctx iterations roll_str dc adv w
                  = (World
                       (journal w ++ Parse roll_str :: replicate n Roll
                          ++ [TryDelete;
                              Send (mention ctx ++ [NL]
                                      ++ reply_text
                                           (roll_many_header a iterations dc)
                                           (roll_many_footer
                                              (successes_of dc totals)
                                              (sum_of totals) dc)
                                           lines iterations) true;
                              IncreaseStat DICE_ROLLED])
                       (d20_state w),
                     inr tt)
              end
          end
      end
  end.
Proof.
  intros Hrange. cbv zeta.
  destruct (parse roll_str) as [msg|a] eqn:Hparse.
  { unfold _roll_many.
    destruct (Z.ltb_spec iterations 1); [lia|].
    destruct (Z.ltb_spec 100 iterations); [lia|]. cbn [orb].
    unfold call_parse, mbind, cmd_bind, emit. by rewrite Hparse. }
  destruct (roll_run _ a _ dc new_context) as [results [e|]] eqn:Hrun.
  { unfold _roll_many.
    destruct (Z.ltb_spec iterations 1); [lia|].
    destruct (Z.ltb_spec 100 iterations); [lia|]. cbn [orb].
    unfold call_parse, mbind, cmd_bind, emit at 1. rewrite Hparse.
    cbn [mret cmd_ret journal d20_state].
    rewrite (roll_iterations_stop _ _ _ _ _ _ _ _ _ _ Hrun).
    cbn [journal d20_state]. by rewrite <- !(assoc_L (++)). }
  destruct (roll_iterations_run a (default NONE adv) dc _ new_context 0 []
              (World (journal w ++ [Parse roll_str]) (d20_state w))
              results Hrun) as (Hrolls & Hlen & successes & Hit).
  destruct (collect total results) as [e|totals] eqn:Htot;
    [|destruct (collect result_str results) as [e|lines] eqn:Hlines].
  - unfold _roll_many.
    destruct (Z.ltb_spec iterations 1); [lia|].
    destruct (Z.ltb_spec 100 iterations); [lia|]. cbn [orb].
    unfold call_parse, mbind, cmd_bind, emit at 1. rewrite Hparse.
    cbn [mret cmd_ret journal d20_state]. rewrite Hit.
    unfold read at 1. rewrite (sum_totals_fail _ _ Htot).
    cbn [journal d20_state app]. by rewrite <- !(assoc_L (++)).
  - unfold _roll_many.
    destruct (Z.ltb_spec iterations 1); [lia|].
    destruct (Z.ltb_spec 100 iterations); [lia|]. cbn [orb].
    unfold call_parse, mbind, cmd_bind, emit at 1. rewrite Hparse.
    cbn [mret cmd_ret journal d20_state]. rewrite Hit.
    unfold read at 1. rewrite (sum_totals_ok _ _ _ Htot).
    unfold roll_many_out, mbind, cmd_bind, read. cbn [app]. rewrite Hlines.
    cbn [journal d20_state]. by rewrite <- !(assoc_L (++)).
  - rewrite <- Hrolls in Hlen, Htot, Hlines.
    by apply roll_many_ok.
Qed.

Lemma roll_many_rejects (ctx : context) (iterations : Z) (roll_str : str)
    (dc : option Z) (adv : option AdvType) (w : world) :
  (iterations < 1 ∨ 100 < iterations)%Z →
  _roll_many ctx iterations roll_str dc adv w
  = (World (journal w ++ [Send REJECTION false]) (d20_state w), inr tt).
Proof.
  intros Hout. unfold _roll_many.
  destruct (Z.ltb_spec iterations 1), (Z.ltb_spec 100 iterations);
    try done; lia.
Qed.

(** X11: Both multi-roll commands answer a count out of range with the
    rejection alone, whatever the dice, the DC and the other arguments:
    nothing is parsed or rolled. *)
Theorem multiroll_commands_reject (ctx : context) (iterations : Z)
    (rollStr args : str) (dc : option Z) (w : world) :
  (iterations < 1 ∨ 100 < iterations)%Z →
  rr ctx iterations rollStr w
  = (World (journal w ++ [Send REJECTION false]) (d20_state w), inr tt)
  ∧ rrr ctx iterations rollStr dc args w
    = (World (journal w ++ [Send REJECTION false]) (d20_state w), inr tt).
Proof.
  intros Hout. unfold rr, rrr.
  destruct (_string_search_adv rollStr), (_string_search_adv args).
  split; by apply roll_many_rejects.
Qed.

Lemma renders_length (st : roll_context)
    (roll_exprs : list (str * str * str)) (lines : list str)
    (st' : roll_context) :
  renders st roll_exprs lines st' → length lines ≤ length roll_exprs.
Proof. induction 1; simpl; lia. Qed.

(** X12: Inline rolling on a batch whose results all render: an expression
    that does not parse gives no line, one whose roll raises a roll
    error gives the line with the message, one that rolls gives the line
    with its rendering.  There is no reply when there is no line, and
    otherwise exactly one, the lines joined by newlines in the order of
    the expressions; the module-level roller is left alone. *)
Theorem do_inline_rolls_one_reply (roll_exprs : list (str * str * str))
    (lines : list str) (st' : roll_context) (w : world) :
  renders new_context roll_exprs lines st' →
  length lines ≤ length roll_exprs
  ∧ do_inline_rolls roll_exprs w
    = (World (journal w ++ reply_of lines) (d20_state w), inr tt).
Proof.
  intros Hlines. split; [by eapply renders_length|].
  unfold do_inline_rolls, mbind, cmd_bind, read.
  rewrite (inline_lines_renders _ _ _ _ Hlines []). cbn [app].
  destruct lines; [|done]. simpl. rewrite app_nil_r. by destruct w.
Qed.

End MoreCommandProperties.

(** The toy engine on a roll with advantage, and on a division by zero,
    which rolls and raises when the text of the result is read. *)
Lemma rollCmd_outcomes_witness :
  rollCmd toy_ctx (py "1d20+5 adv") toy_world
  = (World (H := toy_engine)
       [Roll; TryDelete;
        Send (py "<@42>" ++ GAME_DIE ++ [NL] ++ toy_render (py "1d20+5 ")) true;
        IncreaseStat DICE_ROLLED]
       1,
     inr tt)
  ∧ rollCmd toy_ctx (py "1/0") toy_world
    = (World (H := toy_engine) [Roll] 1,
       inl (RollError (py "Cannot divide by zero."))).
Proof.
  split.
  - refine (rollCmd_outcomes toy_ctx (py "1d20+5 adv") toy_world _).
    vm_compute. discriminate.
  - refine (rollCmd_outcomes toy_ctx (py "1/0") toy_world _).
    vm_compute. discriminate.
Defined.

(** The toy engine on four batches that fail: an expression that does
    not parse; a roll that raises; a division by zero, which rolls three
    times and raises when the totals are summed; and the same with a DC,
    which raises when the first total is compared. *)
Lemma roll_many_no_partial_output_witness :
  _roll_many toy_ctx 3 (py "(1d6") None None toy_world
  = (World (H := toy_engine) [Parse (py "(1d6")] 0,
     inl (RollSyntaxError (py "Unexpected input")))
  ∧ _roll_many toy_ctx 3 (py "1001d6") None None toy_world
    = (World (H := toy_engine) [Parse (py "1001d6"); Roll] 0,
       inl (RollError (py "Too many dice rolled.")))
  ∧ _roll_many toy_ctx 3 (py "1/0") None None toy_world
    = (World (H := toy_engine) [Parse (py "1/0"); Roll; Roll; Roll] 0,
       inl (RollError (py "Cannot divide by zero.")))
  ∧ _roll_many toy_ctx 3 (py "1/0") (Some 10%Z) None toy_world
    = (World (H := toy_engine) [Parse (py "1/0"); Roll] 0,
       inl (RollError (py "Cannot divide by zero."))).
Proof.
  split_and!.
  - refine (roll_many_no_partial_output toy_ctx 3 (py "(1d6") None None
              toy_world _). lia.
  - refine (roll_many_no_partial_output toy_ctx 3 (py "1001d6") None None
              toy_world _). lia.
  - refine (roll_many_no_partial_output toy_ctx 3 (py "1/0") None None
              toy_world _). lia.
  - refine (roll_many_no_partial_output toy_ctx 3 (py "1/0") (Some 10%Z) None
              toy_world _). lia.
Defined.

Lemma multiroll_commands_reject_witness :
  rr toy_ctx 0 (py "1d6 adv") toy_world
  = (World (H := toy_engine) [Send REJECTION false] 0, inr tt)
  ∧ rrr toy_ctx 0 (py "1d6 adv") (Some 10%Z) (py "dis") toy_world
    = (World (H := toy_engine) [Send REJECTION false] 0, inr tt).
Proof.
  apply (multiroll_commands_reject toy_ctx 0 (py "1d6 adv") (py "dis")
           (Some 10%Z) toy_world).
  lia.
Defined.

(** The toy engine on a message with an expression that does not parse,
    one whose roll raises and one that rolls. *)
Lemma do_inline_rolls_one_reply_witness :
  2 ≤ 3
  ∧ do_inline_rolls
      [(py "(", py "a ", py " b"); (py "1001d6", py "c ", py " d");
       (py "1d6", py "e ", [])] toy_world
    = (World (H := toy_engine)
         [Reply (py "c (Too many dice rolled.) d" ++ [NL]
                   ++ py "e (1d6 = some dice, rendered at length)")] 0,
       inr tt).
Proof.
  refine (do_inline_rolls_one_reply (H := toy_engine)
            [(py "(", py "a ", py " b"); (py "1001d6", py "c ", py " d");
             (py "1d6", py "e ", [])]
            [inline_line (py "c ") (py "Too many dice rolled.") (py " d");
             inline_line (py "e ") (toy_render (py "1d6")) []]
            2 toy_world _).
  eapply renders_syntax; [reflexivity|].
  eapply renders_error; [reflexivity|].
  eapply renders_rolled; [reflexivity|reflexivity|].
  apply renders_nil.
Defined.

(** ** The listeners *)

Lemma find_inline_exprs_default_nil (content : str) :
  _find_roll_expr_indices content = [] →
  find_inline_exprs_default content = [].
Proof.
  intros Hnil.
  unfold find_inline_exprs_default, _find_inline_exprs, windows, raw_windows.
  by rewrite Hnil.
Qed.

Section ListenerProperties.
Context `{RollEngine}.

Lemma run_inline_rolls_keeps (roll_exprs : list (str * str * str)) (b : bot) :
  bot_rdb (run_inline_rolls roll_exprs b).1 = bot_rdb b
  ∧ bot_dms (run_inline_rolls roll_exprs b).1 = bot_dms b.
Proof.
  unfold run_inline_rolls.
  by destruct (do_inline_rolls roll_exprs (bot_world b)).
Qed.

(** X13: A message written by a bot, or one in which the locator finds no
    bracketed expression, is left alone: no onboarding, no roll, no
    reply, and the store is not touched. *)
Theorem on_message_ignores (e : env) (m : message) (b : bot) :
  user_bot (msg_author m) = true
  ∨ _find_roll_expr_indices (msg_content m) = [] →
  on_message e m b = (b, inr tt).
Proof.
  unfold on_message, handle_message_inline_rolls.
  intros [->|Hnil]; [done|].
  rewrite (find_inline_exprs_default_nil _ Hnil).
  by destruct (user_bot (msg_author m)).
Qed.

Lemma message_onboarding_set (e : env) (u : user) (b : bot) :
  dm_open e (user_id u) = true →
  (∀ v t, bot_rdb b !! message_onboarded_key u ≠ Some (v, Some t)) →
  (∀ t, rdb_get (bot_rdb (inline_rolling_message_onboarding e u b))
          (message_onboarded_key u) t = true)
  ∧ length (bot_dms (inline_rolling_message_onboarding e u b))
    ≤ S (length (bot_dms b)).
Proof.
  intros Hopen Hperm. unfold inline_rolling_message_onboarding.
  destruct (rdb_get (bot_rdb b) (message_onboarded_key u) (clock e)) eqn:E.
  - split; [|lia]. intros t. unfold rdb_get in *.
    destruct (bot_rdb b !! message_onboarded_key u) as [[v [x|]]|] eqn:El;
      [by destruct (Hperm v x)|done|done].
  - rewrite Hopen. simpl. split.
    + intros t. unfold rdb_get, rdb_set. by rewrite lookup_insert_eq.
    + rewrite length_app. simpl. lia.
Qed.

(** X14: The onboarding message goes out once.  The flags of the users are
    written to stay; where the user's flag is not an entry that expires,
    after a message with inline rolls from a user whose direct messages
    are open the flag is set for good and no later message of that user
    brings another direct message.  When the direct message cannot be
    delivered, the flag stays as it was, so that the next message tries
    again. *)
Theorem message_onboarding_once (e e' : env) (m m' : message) (b : bot) :
  user_bot (msg_author m) = false →
  find_inline_exprs_default (msg_content m) ≠ [] →
  user_id (msg_author m') = user_id (msg_author m) →
  (∀ v t, bot_rdb b !! message_onboarded_key (msg_author m)
          ≠ Some (v, Some t)) →
  let b1 := (on_message e m b).1 in
  (dm_open e (user_id (msg_author m)) = true →
   (∀ t, rdb_get (bot_rdb b1) (message_onboarded_key (msg_author m)) t
         = true)
   ∧ length (bot_dms b1) ≤ S (length (bot_dms b))
   ∧ bot_dms (on_message e' m' b1).1 = bot_dms b1)
  ∧ (dm_open e (user_id (msg_author m)) = false →
     bot_rdb b1 = bot_rdb b ∧ bot_dms b1 = bot_dms b).
Proof.
  intros Hbot Hexprs Hid Hperm. cbv zeta.
  set (u := msg_author m) in *.
  set (b0 := inline_rolling_message_onboarding e u b).
  assert (on_message e m b
          = run_inline_rolls (find_inline_exprs_default (msg_content m)) b0)
    as ->.
  { unfold on_message, handle_message_inline_rolls. fold u. rewrite Hbot.
    by destruct (find_inline_exprs_default (msg_content m)). }
  destruct (run_inline_rolls_keeps
              (find_inline_exprs_default (msg_content m)) b0)
    as (Hrdb & Hdms).
  set (b1 := (run_inline_rolls _ b0).1) in *.
  split.
  - intros Hopen.
    destruct (message_onboarding_set e u b Hopen Hperm) as [Hset Hlen].
    fold b0 in Hset, Hlen. rewrite Hrdb, Hdms.
    split_and!; [done|done|].
    unfold on_message, handle_message_inline_rolls.
    destruct (user_bot (msg_author m')); [exact Hdms|].
    destruct (find_inline_exprs_default (msg_content m')) as [|y ys];
      [exact Hdms|].
    destruct (run_inline_rolls_keeps (y :: ys)
                (inline_rolling_message_onboarding e' (msg_author m') b1))
      as (_ & ->).
    unfold inline_rolling_message_onboarding at 1.
    assert (message_onboarded_key (msg_author m') = message_onboarded_key u)
      as -> by (unfold message_onboarded_key; by rewrite Hid).
    by rewrite Hrdb, Hset.
  - intros Hclosed. rewrite Hrdb, Hdms.
    unfold b0, inline_rolling_message_onboarding.
    rewrite Hclosed. by destruct (rdb_get _ _ _).
Qed.

(** The author's own reaction with the die emoji on a message with inline
    rolls. *)
Lemma on_reaction_add_own (e : env) (r : reaction) (u : user) (b : bot) :
  user_bot u = false →
  user_id u = user_id (msg_author (reaction_message r)) →
  reaction_emoji r = INLINE_ROLLING_EMOJI →
  find_inline_exprs_default (msg_content (reaction_message r)) ≠ [] →
  on_reaction_add e r u b
  = if rdb_get (bot_rdb b) (processed_key (reaction_message r)) (clock e)
    then (b, inr tt)
    else run_inline_rolls
           (find_inline_exprs_default (msg_content (reaction_message r)))
           (Bot (bot_world b)
              (<[processed_key (reaction_message r)
                 := (now e, Some (clock e + 86400)%Z)]> (bot_rdb b))
              (bot_dms b)).
Proof.
  intros Hbot Hid Hemoji Hexprs.
  unfold on_reaction_add, handle_reaction_inline_rolls.
  rewrite Hbot, Hid, Z.eqb_refl, Hemoji, bool_decide_eq_true_2 by done.
  cbn [negb].
  by destruct (find_inline_exprs_default _).
Qed.

(** X15: The author's own reaction with the die emoji on a message with
    inline rolls is handled once in twenty-four hours.  While the
    message's marker is there, the reaction is left alone.  When it is
    not, the message is marked for 86400 seconds from the time of the
    store and its expressions are rolled, with no direct message; the
    same reaction, handled again before that time is over, changes
    nothing and replies nothing; handled when it is over, it marks the
    message and rolls its expressions again. *)
Theorem reaction_handled_once (e e' : env) (r : reaction) (u : user)
    (b : bot) :
  user_bot u = false →
  user_id u = user_id (msg_author (reaction_message r)) →
  reaction_emoji r = INLINE_ROLLING_EMOJI →
  find_inline_exprs_default (msg_content (reaction_message r)) ≠ [] →
  let m := reaction_message r in
  let roll_exprs := find_inline_exprs_default (msg_content m) in
  let b1 := (on_reaction_add e r u b).1 in
  (rdb_get (bot_rdb b) (processed_key m) (clock e) = true →
   on_reaction_add e r u b = (b, inr tt))
  ∧ (rdb_get (bot_rdb b) (processed_key m) (clock e) = false →
     on_reaction_add e r u b
     = run_inline_rolls roll_exprs
         (Bot (bot_world b)
            (<[processed_key m := (now e, Some (clock e + 86400)%Z)]>
               (bot_rdb b))
            (bot_dms b))
     ∧ bot_rdb b1
       = <[processed_key m := (now e, Some (clock e + 86400)%Z)]> (bot_rdb b)
     ∧ bot_dms b1 = bot_dms b
     ∧ ((clock e' < clock e + 86400)%Z →
        on_reaction_add e' r u b1 = (b1, inr tt))
     ∧ ((clock e + 86400 ≤ clock e')%Z →
        on_reaction_add e' r u b1
        = run_inline_rolls roll_exprs
            (Bot (bot_world b1)
               (<[processed_key m := (now e', Some (clock e' + 86400)%Z)]>
                  (bot_rdb b1))
               (bot_dms b1)))).
Proof.
  intros Hbot Hid Hemoji Hexprs. cbv zeta.
  rewrite (on_reaction_add_own e r u b) by done.
  split; [by intros ->|]. intros ->.
  set (b0 := Bot (bot_world b) _ (bot_dms b)).
  destruct (run_inline_rolls_keeps
              (find_inline_exprs_default (msg_content (reaction_message r)))
              b0) as (Hrdb & Hdms).
  set (b1 := (run_inline_rolls _ b0).1) in *.
  assert (∀ t, rdb_get (bot_rdb b1) (processed_key (reaction_message r)) t
               = (t <? clock e + 86400)%Z) as Hget.
  { intros t. unfold rdb_get. rewrite Hrdb. unfold b0. simpl.
    by rewrite lookup_insert_eq. }
  split_and!; [done|done|done| |].
  - intros Hearly. rewrite (on_reaction_add_own e' r u b1) by done.
    rewrite Hget. by destruct (Z.ltb_spec (clock e') (clock e + 86400)); [|lia].
  - intros Hlate. rewrite (on_reaction_add_own e' r u b1) by done.
    rewrite Hget. by destruct (Z.ltb_spec (clock e') (clock e + 86400)); [lia|].
Qed.

(** X16: Only the author's own reaction with the die emoji counts: a reaction
    from a bot, from another user, or with another emoji is left alone. *)
Theorem on_reaction_add_ignores (e : env) (r : reaction) (u : user)
    (b : bot) :
  user_bot u = true
  ∨ user_id u ≠ user_id (msg_author (reaction_message r))
  ∨ reaction_emoji r ≠ INLINE_ROLLING_EMOJI →
  on_reaction_add e r u b = (b, inr tt).
Proof.
  unfold on_reaction_add, handle_reaction_inline_rolls.
  intros [->|[Hid|Hemoji]]; [done| |].
  - apply Z.eqb_neq in Hid. rewrite Hid. by destruct (user_bot u).
  - rewrite bool_decide_eq_false_2 by done.
    destruct (user_bot u); [done|].
    by destruct (user_id u =? user_id (msg_author (reaction_message r)))%Z.
Qed.

End ListenerProperties.


Lemma on_message_ignores_witness :
  on_message toy_env (Message 1 alice (py "no dice [[ here")) toy_bot
  = (toy_bot, inr tt).
Proof.
  apply (on_message_ignores toy_env
           (Message 1 alice (py "no dice [[ here")) toy_bot).
  right. reflexivity.
Defined.

Lemma message_onboarding_once_witness :
  let m := Message 1 alice (py "I roll [[1d20]]") in
  let m' := Message 2 alice (py "and again [[1d6]]") in
  let b1 := (on_message toy_env m toy_bot).1 in
  (dm_open toy_env (user_id (msg_author m)) = true →
   (∀ t, rdb_get (bot_rdb b1) (message_onboarded_key (msg_author m)) t
         = true)
   ∧ length (bot_dms b1) ≤ S (length (bot_dms toy_bot))
   ∧ bot_dms (on_message later_env m' b1).1 = bot_dms b1)
  ∧ (dm_open toy_env (user_id (msg_author m)) = false →
     bot_rdb b1 = bot_rdb toy_bot ∧ bot_dms b1 = bot_dms toy_bot).
Proof.
  apply (message_onboarding_once toy_env later_env
           (Message 1 alice (py "I roll [[1d20]]"))
           (Message 2 alice (py "and again [[1d6]]")) toy_bot).
  - reflexivity.
  - vm_compute. discriminate.
  - reflexivity.
  - intros v t. simpl. rewrite lookup_empty. discriminate.
Defined.

(** A reaction on an empty store, then again a minute and two days
    later. *)
Lemma reaction_handled_once_witness :
  let r := Reaction INLINE_ROLLING_EMOJI
             (Message 1 alice (py "I roll [[1d20]]")) in
  let b1 := (on_reaction_add toy_env r alice toy_bot).1 in
  bot_rdb b1
  = <[processed_key (reaction_message r)
      := (py "1700000000.0", Some 1700086400%Z)]> ∅
  ∧ on_reaction_add minute_env r alice b1 = (b1, inr tt)
  ∧ on_reaction_add later_env r alice b1
    = run_inline_rolls
        (find_inline_exprs_default (py "I roll [[1d20]]"))
        (Bot (bot_world b1)
           (<[processed_key (reaction_message r)
              := (py "1700172800.0", Some 1700259200%Z)]> (bot_rdb b1))
           (bot_dms b1)).
Proof.
  cbv zeta.
  destruct (reaction_handled_once toy_env minute_env
              (Reaction INLINE_ROLLING_EMOJI
                 (Message 1 alice (py "I roll [[1d20]]")))
              alice toy_bot)
    as [_ Hfirst];
    [reflexivity|reflexivity|reflexivity|vm_compute; discriminate|].
  destruct (Hfirst ltac:(reflexivity)) as (_ & Hrdb & _ & Hminute & _).
  destruct (reaction_handled_once toy_env later_env
              (Reaction INLINE_ROLLING_EMOJI
                 (Message 1 alice (py "I roll [[1d20]]")))
              alice toy_bot)
    as [_ Hsecond];
    [reflexivity|reflexivity|reflexivity|vm_compute; discriminate|].
  destruct (Hsecond ltac:(reflexivity)) as (_ & _ & _ & _ & Hlater).
  split_and!.
  - exact Hrdb.
  - apply Hminute. simpl. lia.
  - apply Hlater. simpl. lia.
Defined.

Lemma on_reaction_add_ignores_witness :
  on_reaction_add toy_env
    (Reaction (py "+") (Message 1 alice (py "I roll [[1d20]]"))) alice toy_bot
  = (toy_bot, inr tt).
Proof.
  apply (on_reaction_add_ignores toy_env
           (Reaction (py "+") (Message 1 alice (py "I roll [[1d20]]")))
           alice toy_bot).
  right. right. vm_compute. discriminate.
Defined.
